(** * ECG-to-Music: the signal-to-control pipeline

    A shallow embedding of the mapping and glide logic of the four bridge
    scripts

      - [live_bridges/bridge_live_test.py]  and [bridge_live_test2.py]
        (adaptive threshold, [scipy.signal.medfilt], sanity band),
      - [live_bridges/bridge_live_test3.py] (LSL stream, [moving_median]),
      - [prerecorded_bridges/bridge_prerecorded_modulation.py] (CC 113 ramp).

    Numbers.  The scripts compute on Python/NumPy binary64 values.  Here a
    value of that type is a [num]: an exact rational, or one of the three
    special values the scripts can produce ([60 / 0.0] is [inf], [0.0 / 0.0]
    is [nan]).  Arithmetic on finite values is exact (no rounding error, no
    overflow, no signed zero); the special values follow the IEEE 754 tables.
    Module [B64] transcribes the mappers and the glide steps a second time,
    on the kernel's binary64 numbers; the binary64 sections compare the two
    on the MIDI range and on a grid of integer BPM values.

    Scope.  [find_peaks], the serial and LSL sources and the MIDI port are
    outside: a detection pass takes the peaks found and returns the messages
    sent.  [bridge_live_test.py] opens with a serial echo loop (lines 1-9)
    ahead of the script proper; the pipeline modelled is the script proper,
    which [bridge_live_test2.py] repeats for an LSL source.  The pauses
    ([time.sleep]) are outside as well; the only ones that are not constants
    last an RR interval and raise when that interval is negative, which takes
    peak times that go backwards.  A pass or a run that returns in the
    scripts returns the same here.

    Loops.  The main loops run over the finite sequence of lines or samples
    read so far: [SerialLoop] is the rolling buffer and the cadence of the
    serial bridges, [LSLBuffer] and [LSLLoop] the two growing buffers and the
    loop of the LSL bridge, [PrerecordedLoop] the analysis and the playback of a recording.

    Exceptions.  A Python exception that leaves a function is [Raise]; the
    only one the modelled code raises is the [ValueError] of converting a
    [nan] (or an infinity: [OverflowError]) to an integer. *)

From Stdlib Require Import Reals Qreals Lra.
From Stdlib Require Import ZArith QArith Qround Qabs Lia Lqa List Bool Sorted.
From Stdlib Require Import Floats Uint63.
Import ListNotations.

Local Open Scope Z_scope.

(** ** Python values *)

Inductive num : Type :=
| Fin (q : Q)
| PInf
| NInf
| NaN.

Inductive exn : Type :=
| ValueError
| OverflowError.

Inductive result (A : Type) : Type :=
| Ok (a : A)
| Raise (e : exn).

Arguments Ok {A} a.
Arguments Raise {A} e.

Definition bind {A B : Type} (r : result A) (k : A -> result B) : result B :=
  match r with
  | Ok a => k a
  | Raise e => Raise e
  end.

Notation "x <- r ;; k" := (bind r (fun x => k))
  (at level 61, r at next level, right associativity).

Module Num.

Definition of_Z (z : Z) : num := Fin (inject_Z z).

Definition opp (x : num) : num :=
  match x with
  | Fin q => Fin (- q)
  | PInf => NInf
  | NInf => PInf
  | NaN => NaN
  end.

Definition add (x y : num) : num :=
  match x, y with
  | NaN, _ | _, NaN => NaN
  | Fin a, Fin b => Fin (a + b)
  | PInf, NInf | NInf, PInf => NaN
  | PInf, _ | _, PInf => PInf
  | NInf, _ | _, NInf => NInf
  end.

Definition sub (x y : num) : num := add x (opp y).

(** The infinity of the sign of [q], [nan] when [q] is zero. *)
Definition signed_inf (q : Q) : num :=
  match (q ?= 0)%Q with
  | Gt => PInf
  | Lt => NInf
  | Eq => NaN
  end.

Definition mul (x y : num) : num :=
  match x, y with
  | NaN, _ | _, NaN => NaN
  | Fin a, Fin b => Fin (a * b)
  | Fin a, PInf | PInf, Fin a => signed_inf a
  | Fin a, NInf | NInf, Fin a => signed_inf (- a)
  | PInf, PInf | NInf, NInf => PInf
  | PInf, NInf | NInf, PInf => NaN
  end.

(** NumPy scalar division: a zero divisor gives an infinity or [nan] (with
    a warning), never an exception. *)
Definition div (x y : num) : num :=
  match x, y with
  | NaN, _ | _, NaN => NaN
  | Fin a, Fin b => if Qeq_bool b 0 then signed_inf a else Fin (a / b)
  | Fin _, _ => Fin 0
  | PInf, Fin b => if Qle_bool 0 b then PInf else NInf
  | NInf, Fin b => if Qle_bool 0 b then NInf else PInf
  | _, _ => NaN
  end.

Definition abs (x : num) : num :=
  match x with
  | Fin q => Fin (Qabs q)
  | PInf | NInf => PInf
  | NaN => NaN
  end.

(** Comparisons are false as soon as one side is [nan]. *)
Definition ltb (x y : num) : bool :=
  match x, y with
  | NaN, _ | _, NaN => false
  | Fin a, Fin b => negb (Qle_bool b a)
  | NInf, NInf | PInf, _ | _, NInf => false
  | NInf, _ | _, PInf => true
  end.

Definition leb (x y : num) : bool :=
  match x, y with
  | NaN, _ | _, NaN => false
  | Fin a, Fin b => Qle_bool a b
  | NInf, _ | _, PInf => true
  | PInf, _ | _, NInf => false
  end.

Definition is_nan (x : num) : bool :=
  match x with
  | NaN => true
  | _ => false
  end.

(** [np.maximum] and [np.minimum] propagate [nan]. *)
Definition maximum (x y : num) : num :=
  if is_nan x || is_nan y then NaN else if ltb x y then y else x.

Definition minimum (x y : num) : num :=
  if is_nan x || is_nan y then NaN else if ltb y x then y else x.

(** [np.clip(x, lo, hi)] is [np.minimum(np.maximum(x, lo), hi)]. *)
Definition clip (x lo hi : num) : num := minimum (maximum x lo) hi.

(** Python's builtin [max(a, b)] and [min(a, b)]: the first argument is
    kept unless the second compares strictly beyond it. *)
Definition py_max (a b : num) : num := if ltb a b then b else a.
Definition py_min (a b : num) : num := if ltb b a then b else a.

(** Python 3 [round]: to the nearest integer, ties to the even one. *)
Definition round_half_even (q : Q) : Z :=
  let f := Qfloor q in
  match (q - inject_Z f ?= 1 # 2)%Q with
  | Lt => f
  | Gt => f + 1
  | Eq => if Z.even f then f else f + 1
  end.

(** [int(x)] on a float: truncation toward zero. *)
Definition truncate (q : Q) : Z :=
  if Qle_bool 0 q then Qfloor q else Qceiling q.

(** [int(round(x))]: [round] raises on [nan] and on the infinities. *)
Definition int_round (x : num) : result Z :=
  match x with
  | Fin q => Ok (round_half_even q)
  | PInf | NInf => Raise OverflowError
  | NaN => Raise ValueError
  end.

(** [int(x)]. *)
Definition int (x : num) : result Z :=
  match x with
  | Fin q => Ok (truncate q)
  | PInf | NInf => Raise OverflowError
  | NaN => Raise ValueError
  end.

End Num.

(** ** Glide controller, discrete (note numbers)

    [bridge_live_test.py] 142-147, the same lines in [bridge_live_test2.py]
    and [bridge_live_test3.py]:
<<
    note_distance = target_note - current_note
    glide_step = int(round(note_distance * note_glide_speed))
    if glide_step == 0 and note_distance != 0:
        glide_step = np.sign(note_distance)
    note_to_play = current_note + glide_step
>>
*)

Definition note_glide_speed : Q := 2 # 10.

Definition glide_step (speed : Q) (note_distance : Z) : Z :=
  let glide_step := Num.round_half_even (inject_Z note_distance * speed) in
  if (glide_step =? 0) && negb (note_distance =? 0)
  then Z.sgn note_distance
  else glide_step.

Definition glide (speed : Q) (target_note current_note : Z) : Z :=
  current_note + glide_step speed (target_note - current_note).

(** [n] accepted updates toward a target that does not move. *)
Fixpoint glide_iter (n : nat) (speed : Q) (target_note current_note : Z) : Z :=
  match n with
  | O => current_note
  | S k => glide_iter k speed target_note (glide speed target_note current_note)
  end.

(** ** Mapper

    [bridge_live_test.py] 63-73 (identical in [bridge_live_test2.py];
    [bridge_live_test3.py] 69-77 reads the note and velocity bounds from
    module constants of the same values):
<<
    def bpm_to_note_quantized(bpm, min_bpm, max_bpm, min_note=48, max_note=84):
        bpm = np.clip(bpm, min_bpm, max_bpm)
        norm = (bpm - min_bpm) / (max_bpm - min_bpm)
        note_float = min_note + norm * (max_note - min_note)
        return int(round(note_float))
>>
*)

Definition min_note : Z := 48.
Definition max_note : Z := 84.
Definition min_velocity : Z := 50.
Definition max_velocity : Z := 70.
Definition min_cc113 : Z := 0.
Definition max_cc113 : Z := 127.

Definition normalize (bpm min_bpm max_bpm : num) : num :=
  let bpm := Num.clip bpm min_bpm max_bpm in
  Num.div (Num.sub bpm min_bpm) (Num.sub max_bpm min_bpm).

Definition bpm_to_note_quantized
  (bpm min_bpm max_bpm : num) (min_note max_note : Z) : result Z :=
  let norm := normalize bpm min_bpm max_bpm in
  let note_float :=
    Num.add (Num.of_Z min_note) (Num.mul norm (Num.of_Z (max_note - min_note))) in
  Num.int_round note_float.

(** [floor (k * sqrt q)] and [ceil (k * sqrt q)] for a rational [0 <= q],
    computed on integers: the square root of a rational is not one. *)
Definition floor_mul_sqrt (k : Z) (q : Q) : Z :=
  let r := (inject_Z (k * k) * q)%Q in
  if 0 <=? k then Z.sqrt (Qfloor r) else - Z.sqrt_up (Qceiling r).

Definition ceil_mul_sqrt (k : Z) (q : Q) : Z :=
  let r := (inject_Z (k * k) * q)%Q in
  if 0 <=? k then Z.sqrt_up (Qceiling r) else - Z.sqrt (Qfloor r).

(** [int(a + k * np.sqrt(x))] for integers [a] and [k].  [np.sqrt] of a
    negative number or of [nan] is [nan]; [int] truncates toward zero. *)
Definition int_affine_sqrt (a k : Z) (x : num) : result Z :=
  match x with
  | Fin q =>
      if Qle_bool 0 q
      then let lo := a + floor_mul_sqrt k q in
           Ok (if 0 <=? lo then lo else a + ceil_mul_sqrt k q)
      else Raise ValueError
  | PInf => if k =? 0 then Raise ValueError else Raise OverflowError
  | NInf | NaN => Raise ValueError
  end.

(**
<<
    def bpm_to_velocity(bpm, min_bpm, max_bpm, min_velocity=50, max_velocity=70):
        bpm = np.clip(bpm, min_bpm, max_bpm)
        norm = (bpm - min_bpm) / (max_bpm - min_bpm)
        velocity = int(min_velocity + (max_velocity - min_velocity) * np.sqrt(norm))
        return velocity
>>
*)
Definition bpm_to_velocity
  (bpm min_bpm max_bpm : num) (min_velocity max_velocity : Z) : result Z :=
  let norm := normalize bpm min_bpm max_bpm in
  int_affine_sqrt min_velocity (max_velocity - min_velocity) norm.

(** [bridge_prerecorded_modulation.py] 70-73; [min_bpm] and [max_bpm] are
    module globals there, parameters here:
<<
    def bpm_to_cc113(bpm):
        bpm = np.clip(bpm, min_bpm, max_bpm)
        norm = (bpm - min_bpm) / (max_bpm - min_bpm)
        return int(round(min_cc113 + norm * (max_cc113 - min_cc113)))
>>
*)
Definition bpm_to_cc113 (min_bpm max_bpm bpm : num) : result Z :=
  let norm := normalize bpm min_bpm max_bpm in
  Num.int_round
    (Num.add (Num.of_Z min_cc113) (Num.mul norm (Num.of_Z (max_cc113 - min_cc113)))).


(** ** Interval estimator: array helpers *)

Fixpoint insert_sorted (x : num) (l : list num) : list num :=
  match l with
  | [] => [x]
  | y :: t => if Num.leb x y then x :: l else y :: insert_sorted x t
  end.

Definition sort (l : list num) : list num := fold_right insert_sorted [] l.

(** [np.median]: [nan] as soon as one element is (and on an empty array),
    the middle of the sorted values, the mean of the two middle ones when
    their number is even. *)
Definition np_median (a : list num) : num :=
  if existsb Num.is_nan a then NaN
  else
    let s := sort a in
    let n := length a in
    match n with
    | O => NaN
    | _ =>
        if Nat.odd n then nth (n / 2) s NaN
        else Num.div (Num.add (nth (n / 2 - 1) s NaN) (nth (n / 2) s NaN)) (Fin 2)
    end.

(** [np.min] and [np.max] of an array; they raise on an empty one. *)
Definition np_min (a : list num) : result num :=
  match a with
  | [] => Raise ValueError
  | x :: t => Ok (fold_left Num.minimum t x)
  end.

Definition np_max (a : list num) : result num :=
  match a with
  | [] => Raise ValueError
  | x :: t => Ok (fold_left Num.maximum t x)
  end.

(** [np.diff]: consecutive differences. *)
Fixpoint np_diff (a : list num) : list num :=
  match a with
  | x :: (y :: _) as t => Num.sub y x :: np_diff t
  | _ => []
  end.

(** [a[-k:]] for [0 < k]. *)
Definition lastn (k : nat) (a : list num) : list num :=
  skipn (length a - k) a.

(** [[padded[i:i+window] for i in range(n)]]. *)
Definition windows (window : nat) (padded : list num) (n : nat) : list (list num) :=
  map (fun i => firstn window (skipn i padded)) (seq 0 n).

(** [np.pad(data, (before, after), mode='edge')]; an empty array cannot be
    extended by its (missing) edge value. *)
Definition np_pad_edge (data : list num) (before after : nat) : result (list num) :=
  match data with
  | [] => if (before + after =? 0)%nat then Ok [] else Raise ValueError
  | x :: _ => Ok (repeat x before ++ data ++ repeat (last data x) after)
  end.

(** [bridge_prerecorded_modulation.py] 56-58 and [bridge_live_test3.py]
    79-81:
<<
    def moving_median(data, window_size=3):
        padded = np.pad(data, (window_size//2, window_size-1-window_size//2), mode='edge')
        return np.array([np.median(padded[i:i+window_size]) for i in range(len(data))])
>>
    A window of 0 asks [np.pad] for a negative width, which raises. *)
Definition moving_median (data : list num) (window_size : nat) : result (list num) :=
  if (window_size =? 0)%nat then Raise ValueError
  else
    padded <- np_pad_edge data (window_size / 2) (window_size - 1 - window_size / 2) ;;
    Ok (map np_median (windows window_size padded (length data))).

(** [scipy.signal.medfilt(volume, kernel_size)] on a one-dimensional array,
    after SciPy's documentation: the median over a window of odd size
    centred on each element, the array being padded with zeros. *)
Definition medfilt (volume : list num) (kernel_size : nat) : list num :=
  let zeros := repeat (Fin 0) (kernel_size / 2) in
  map np_median (windows kernel_size (zeros ++ volume ++ zeros) (length volume)).

(** [60 / rr], element by element. *)
Definition bpm_of_rr (rr : list num) : list num := map (Num.div (Fin 60)) rr.

(** ** Mapping state and events *)

(** The messages the scripts hand to [outport.send]. *)
Inductive event : Type :=
| NoteOn (note velocity : Z)
| NoteOff (note velocity : Z)
| ControlChange (control value : Z).

(** What [mido.Message] accepts: every data byte within 0..127 (it raises
    [ValueError] otherwise). *)
Definition data_byte (z : Z) : bool := (0 <=? z) && (z <=? 127).

Definition midi_ok (m : event) : bool :=
  match m with
  | NoteOn note velocity | NoteOff note velocity => data_byte note && data_byte velocity
  | ControlChange control value => data_byte control && data_byte value
  end.

(** [current_note] and [last_bpm], both [None] at start-up. *)
Record mapping_state : Type := MappingState {
  current_note : option Z;
  last_bpm : option num
}.

Definition initial_state : mapping_state :=
  {| current_note := None; last_bpm := None |}.

(** [last_bpm is None or abs(bpm_value - last_bpm) >= bpm_change_threshold] *)
Definition gate_opens
  (bpm_change_threshold : num) (last_bpm : option num) (bpm_value : num) : bool :=
  match last_bpm with
  | None => true
  | Some l => Num.leb bpm_change_threshold (Num.abs (Num.sub bpm_value l))
  end.

(** The body under the update gate, [bridge_live_test.py] 135-158 (and
    [bridge_live_test2.py] 125-147, [bridge_live_test3.py] 115-141): map,
    initialise [current_note] on first use, glide, send the note-on and the
    note-off, record [last_bpm].  An exception of the mapper leaves the loop:
    the scripts catch [KeyboardInterrupt] only. *)
Definition gated_update
  (bpm_change_threshold : num) (st : mapping_state)
  (bpm_value min_bpm max_bpm : num) : result (mapping_state * list event) :=
  if gate_opens bpm_change_threshold (last_bpm st) bpm_value then
    target_note <- bpm_to_note_quantized bpm_value min_bpm max_bpm min_note max_note ;;
    velocity <- bpm_to_velocity bpm_value min_bpm max_bpm min_velocity max_velocity ;;
    let current_note :=
      match current_note st with
      | None => target_note
      | Some c => c
      end in
    let note_to_play := glide note_glide_speed target_note current_note in
    Ok ({| current_note := Some note_to_play; last_bpm := Some bpm_value |},
        [NoteOn note_to_play velocity; NoteOff note_to_play 0])
  else Ok (st, []).

(** ** Detection pass of [bridge_live_test.py] and [bridge_live_test2.py]

    Lines 120-158 of the former, 110-147 of the latter; [peaks] is what
    [find_peaks] returned on the buffer (sample indices).  The module
    constant [bpm_change_threshold] is a parameter of the pass.
<<
    peak_times = peaks / fs
    if len(peak_times) > 1:
        rr_intervals = np.diff(peak_times)
        rr_filtered = medfilt(rr_intervals, kernel_size=3)
        bpm_values = 60 / rr_filtered
        bpm_value = np.median(bpm_values[-3:]) if len(bpm_values) >= 3 else bpm_values[-1]
        if bpm_value < 30 or bpm_value > 200:
            continue
        min_bpm = max(40, np.min(bpm_values))
        max_bpm = min(180, np.max(bpm_values))
        if last_bpm is None or abs(bpm_value - last_bpm) >= bpm_change_threshold:
            ...
>>
*)
Module LiveSerial.

Definition fs : Z := 1000.
Definition bpm_change_threshold : num := Fin 1.

(** The smoothed BPM sequence of a pass. *)
Definition bpm_values_of (peaks : list Z) : list num :=
  let peak_times := map (fun p => Num.div (Num.of_Z p) (Num.of_Z fs)) peaks in
  let rr_intervals := np_diff peak_times in
  let rr_filtered := medfilt rr_intervals 3 in
  bpm_of_rr rr_filtered.

(** [np.median(bpm_values[-3:]) if len(bpm_values) >= 3 else bpm_values[-1]] *)
Definition current_bpm (bpm_values : list num) : num :=
  if (3 <=? length bpm_values)%nat
  then np_median (lastn 3 bpm_values)
  else last bpm_values NaN.

(** [bpm_value < 30 or bpm_value > 200] *)
Definition out_of_band (bpm_value : num) : bool :=
  Num.ltb bpm_value (Fin 30) || Num.ltb (Fin 200) bpm_value.

(** [(max(40, np.min(bpm_values)), min(180, np.max(bpm_values)))] *)
Definition bpm_range (bpm_values : list num) : result (num * num) :=
  lo <- np_min bpm_values ;;
  hi <- np_max bpm_values ;;
  Ok (Num.py_max (Fin 40) lo, Num.py_min (Fin 180) hi).

Definition detection_pass
  (bpm_change_threshold : num) (st : mapping_state) (peaks : list Z)
  : result (mapping_state * list event) :=
  if (1 <? length peaks)%nat then
    let bpm_values := bpm_values_of peaks in
    let bpm_value := current_bpm bpm_values in
    if out_of_band bpm_value then Ok (st, [])
    else
      range <- bpm_range bpm_values ;;
      gated_update bpm_change_threshold st bpm_value (fst range) (snd range)
  else Ok (st, []).

End LiveSerial.

(** ** Detection pass of [bridge_live_test3.py]

    Lines 105-141; [peak_times] is [np.array(time_buffer)[r_peaks]].
<<
    if len(r_peaks) >= 2:
        peak_times = np.array(time_buffer)[r_peaks]
        rr_intervals = np.diff(peak_times)
        smoothed_rr = moving_median(rr_intervals)
        smoothed_bpm = 60 / smoothed_rr
        min_bpm, max_bpm_val = np.min(smoothed_bpm), np.max(smoothed_bpm)
        bpm_value = smoothed_bpm[-1]
        if last_bpm is None or abs(bpm_value - last_bpm) >= bpm_change_threshold:
            ...
>>
*)
Module LiveLSL.

Definition bpm_change_threshold : num := Fin 3.

Definition detection_pass
  (bpm_change_threshold : num) (st : mapping_state) (peak_times : list num)
  : result (mapping_state * list event) :=
  if (2 <=? length peak_times)%nat then
    let rr_intervals := np_diff peak_times in
    smoothed_rr <- moving_median rr_intervals 3 ;;
    let smoothed_bpm := bpm_of_rr smoothed_rr in
    min_bpm <- np_min smoothed_bpm ;;
    max_bpm_val <- np_max smoothed_bpm ;;
    let bpm_value := last smoothed_bpm NaN in
    gated_update bpm_change_threshold st bpm_value min_bpm max_bpm_val
  else Ok (st, []).

End LiveLSL.

(** The note held by the glide controller, once there is one, is a note
    of the mapper's range. *)
Definition note_in_range (st : mapping_state) : Prop :=
  forall n, current_note st = Some n -> min_note <= n <= max_note.

(** The states a run can be in at the start of a pass: the initial one, and
    the one left by a pass that returned. *)
Inductive reachable {I : Type}
  (pass : mapping_state -> I -> result (mapping_state * list event))
  : mapping_state -> Prop :=
| reachable_init : reachable pass initial_state
| reachable_pass st input st' events :
    reachable pass st ->
    pass st input = Ok (st', events) ->
    reachable pass st'.

(** ** Glide controller, continuous (CC 113)

    [bridge_prerecorded_modulation.py] 92-104:
<<
    cc_value = last_cc113
    while cc_value != target_cc:
        step = max(1, int(abs(target_cc - cc_value) * glide_speed))
        if cc_value < target_cc:
            cc_value = min(target_cc, cc_value + step)
        else:
            cc_value = max(target_cc, cc_value - step)
        cc_msg = mido.Message('control_change', control=113, value=cc_value, channel=0)
        outport.send(cc_msg)
        last_cc113 = cc_value
>>
*)
Module Prerecorded.

Definition glide_speed : Q := 1 # 10.

Definition cc_increment (glide_speed : Q) (target_cc cc_value : Z) : Z :=
  Z.max 1 (Num.truncate (inject_Z (Z.abs (target_cc - cc_value)) * glide_speed)).

Definition cc_step (glide_speed : Q) (target_cc cc_value : Z) : Z :=
  let step := cc_increment glide_speed target_cc cc_value in
  if cc_value <? target_cc
  then Z.min target_cc (cc_value + step)
  else Z.max target_cc (cc_value - step).

(** The [while] loop, at most [fuel] iterations: the final [cc_value] and
    the messages sent, or [None] when the loop is still running. *)
Fixpoint cc_glide (fuel : nat) (glide_speed : Q) (target_cc cc_value : Z)
  : option (Z * list event) :=
  if cc_value =? target_cc then Some (cc_value, [])
  else
    match fuel with
    | O => None
    | S fuel' =>
        let cc_value := cc_step glide_speed target_cc cc_value in
        match cc_glide fuel' glide_speed target_cc cc_value with
        | Some (final, sent) => Some (final, ControlChange 113 cc_value :: sent)
        | None => None
        end
    end.

(** The increment as the specification words it, with [round] where the
    script has [int]. *)
Definition spec_cc_increment (glide_speed : Q) (target_cc cc_value : Z) : Z :=
  Z.max 1 (Num.round_half_even (inject_Z (Z.abs (target_cc - cc_value)) * glide_speed)).

End Prerecorded.

(** The exact mappers at integer arguments, with the default output
    ranges. *)
Definition note_at (bpm min_bpm max_bpm : Z) : result Z :=
  bpm_to_note_quantized (Num.of_Z bpm) (Num.of_Z min_bpm) (Num.of_Z max_bpm)
    min_note max_note.

Definition velocity_at (bpm min_bpm max_bpm : Z) : result Z :=
  bpm_to_velocity (Num.of_Z bpm) (Num.of_Z min_bpm) (Num.of_Z max_bpm)
    min_velocity max_velocity.

Definition cc113_at (bpm min_bpm max_bpm : Z) : result Z :=
  bpm_to_cc113 (Num.of_Z min_bpm) (Num.of_Z max_bpm) (Num.of_Z bpm).

(** ** The same steps on binary64

    The kernel's primitive floats are IEEE 754 binary64 with rounding to
    nearest even, the arithmetic of Python's [float] and of [np.float64].
    Every finite binary64 value is a rational, so [to_num] is exact and the
    conversions to an integer are those of [Num]. *)
Module B64.

Definition to_num (x : float) : num :=
  match Prim2SF x with
  | S754_zero _ => Fin 0
  | S754_infinity false => PInf
  | S754_infinity true => NInf
  | S754_nan => NaN
  | S754_finite s m e =>
      Fin ((if s then - inject_Z (Z.pos m) else inject_Z (Z.pos m)) * 2 ^ e)%Q
  end.

(** A Python [int] as a float; exact below [2^53] in absolute value. *)
Definition of_int (z : Z) : float :=
  if z <? 0
  then PrimFloat.opp (PrimFloat.of_uint63 (Uint63.of_Z (- z)))
  else PrimFloat.of_uint63 (Uint63.of_Z z).

Definition is_nan (x : float) : bool := negb (PrimFloat.eqb x x).

Definition maximum (x y : float) : float :=
  if is_nan x || is_nan y then PrimFloat.nan
  else if PrimFloat.ltb x y then y else x.

Definition minimum (x y : float) : float :=
  if is_nan x || is_nan y then PrimFloat.nan
  else if PrimFloat.ltb y x then y else x.

Definition clip (x lo hi : float) : float := minimum (maximum x lo) hi.

Definition normalize (bpm min_bpm max_bpm : float) : float :=
  let bpm := clip bpm min_bpm max_bpm in
  ((bpm - min_bpm) / (max_bpm - min_bpm))%float.

Definition bpm_to_note_quantized
  (bpm min_bpm max_bpm : float) (min_note max_note : Z) : result Z :=
  let norm := normalize bpm min_bpm max_bpm in
  let note_float := (of_int min_note + norm * of_int (max_note - min_note))%float in
  Num.int_round (to_num note_float).

Definition bpm_to_velocity
  (bpm min_bpm max_bpm : float) (min_velocity max_velocity : Z) : result Z :=
  let norm := normalize bpm min_bpm max_bpm in
  Num.int
    (to_num (of_int min_velocity
             + of_int (max_velocity - min_velocity) * PrimFloat.sqrt norm)%float).

Definition bpm_to_cc113 (min_bpm max_bpm bpm : float) : result Z :=
  let norm := normalize bpm min_bpm max_bpm in
  Num.int_round
    (to_num (of_int min_cc113 + norm * of_int (max_cc113 - min_cc113))%float).

(** The literals [0.2] and [0.1] of the scripts, as the binary64 values
    Python reads them to. *)
Definition note_glide_speed : float := 0x1.999999999999ap-3%float.
Definition glide_speed : float := 0x1.999999999999ap-4%float.

Definition glide_step (note_distance : Z) : result Z :=
  glide_step <- Num.int_round (to_num (of_int note_distance * note_glide_speed)%float) ;;
  Ok (if (glide_step =? 0) && negb (note_distance =? 0)
      then Z.sgn note_distance
      else glide_step).

Definition cc_increment (target_cc cc_value : Z) : result Z :=
  step <- Num.int (to_num (of_int (Z.abs (target_cc - cc_value)) * glide_speed)%float) ;;
  Ok (Z.max 1 step).

(** The integers [lo], [lo + 1], ..., [lo + n - 1]. *)
Definition Zrange (lo : Z) (n : nat) : list Z :=
  map (fun i => lo + Z.of_nat i) (seq 0 n).

(** Same integer, or an exception on both sides. *)
Definition result_eqb (r1 r2 : result Z) : bool :=
  match r1, r2 with
  | Ok a, Ok b => a =? b
  | Raise _, Raise _ => true
  | _, _ => false
  end.

(** The three mappers agree with the exact model at the integer [bpm] for
    the integer range [min_bpm .. max_bpm]. *)
Definition mappers_agree (min_bpm max_bpm bpm : Z) : bool :=
  result_eqb
    (bpm_to_note_quantized (of_int bpm) (of_int min_bpm) (of_int max_bpm) min_note max_note)
    (note_at bpm min_bpm max_bpm)
  && result_eqb
       (bpm_to_velocity (of_int bpm) (of_int min_bpm) (of_int max_bpm)
          min_velocity max_velocity)
       (velocity_at bpm min_bpm max_bpm)
  && result_eqb
       (bpm_to_cc113 (of_int min_bpm) (of_int max_bpm) (of_int bpm))
       (cc113_at bpm min_bpm max_bpm).

End B64.

(** ** Kinds of values *)

(** An ordinary number. *)
Definition is_finite (x : num) : bool :=
  match x with
  | Fin _ => true
  | _ => false
  end.


(** A number equal to [d]. *)
Definition equals (d : Q) (x : num) : Prop :=
  exists q, x = Fin q /\ (q == d)%Q.

(** ** Sample buffers and main loops *)

(** Python's [a[-k:]]: the last [k] elements; the whole list when it has no
    more than [k] of them, and also when [k] is 0, [-0] being [0]. *)
Definition slice_last {A : Type} (k : nat) (a : list A) : list A :=
  if (k =? 0)%nat then a else skipn (length a - k) a.

(** What stops a main loop: an index out of range, or an exception of the
    detection pass, which the loops do not catch. *)
Inductive failure : Type :=
| IndexError
| Raised (e : exn).

Inductive outcome (A : Type) : Type :=
| Continue (a : A)
| Stop (f : failure).

Arguments Continue {A} a.
Arguments Stop {A} f.

(** *** Minimum peak spacing ([bridge_live_test.py] 80-81,
    [bridge_live_test3.py] 101-102, [bridge_prerecorded_modulation.py] 39-41)
<<
    min_rr = 60 / 200
    distance_samples = int(min_rr * fs)
>>
    once on exact numbers and once on binary64. *)
Definition distance_samples (fs : Z) : Z :=
  Num.truncate ((60 # 200) * inject_Z fs).

Definition b64_distance_samples (fs : Z) : result Z :=
  let min_rr := (60 / 200)%float in
  Num.int (B64.to_num (min_rr * B64.of_int fs)%float).

(** *** Main loop of [bridge_live_test.py] (94-158) and of
    [bridge_live_test2.py] (89-147)
<<
    line = ser.readline().decode(errors='ignore').strip()
    if not line:
        continue
    try:
        ecg_value = float(line)
    except ValueError:
        continue
    ecg_buffer = np.roll(ecg_buffer, -1)
    ecg_buffer[-1] = ecg_value
    sample_count += 1
    if sample_count % int(fs / 4) == 0:
        ... threshold, find_peaks, the detection pass ...
>>
    A line read is [None] when it is blank or not a number, [Some] sample
    otherwise.  [detect_peaks] stands for the adaptive threshold followed by
    [find_peaks] on the buffer. *)
Module SerialLoop.

Definition buffer_size : Z := LiveSerial.fs * 5.

(** [int(fs / 4)] *)
Definition period : Z := LiveSerial.fs / 4.

(** [np.roll(a, -1)] *)
Definition np_roll_left (a : list num) : list num :=
  match a with
  | [] => []
  | x :: t => t ++ [x]
  end.

(** [a[-1] = v], an [IndexError] on an empty array. *)
Definition set_last (a : list num) (v : num) : option (list num) :=
  match a with
  | [] => None
  | _ :: _ => Some (removelast a ++ [v])
  end.

Definition push (ecg_buffer : list num) (ecg_value : num) : option (list num) :=
  set_last (np_roll_left ecg_buffer) ecg_value.

Record state : Type := State {
  ecg_buffer : list num;
  sample_count : Z;
  mapping : mapping_state
}.

(** [ecg_buffer = np.zeros(buffer_size)], [sample_count = 0] *)
Definition initial : state :=
  {| ecg_buffer := repeat (Fin 0) (Z.to_nat buffer_size);
     sample_count := 0;
     mapping := initial_state |}.

Definition iteration
  (detect_peaks : list num -> list Z) (s : state) (line : option num)
  : outcome (state * list event) :=
  match line with
  | None => Continue (s, [])
  | Some ecg_value =>
      match push (ecg_buffer s) ecg_value with
      | None => Stop IndexError
      | Some ecg_buffer =>
          let sample_count := sample_count s + 1 in
          if sample_count mod period =? 0 then
            match LiveSerial.detection_pass LiveSerial.bpm_change_threshold
                    (mapping s) (detect_peaks ecg_buffer) with
            | Ok (mapping, events) =>
                Continue ({| ecg_buffer := ecg_buffer;
                             sample_count := sample_count;
                             mapping := mapping |}, events)
            | Raise e => Stop (Raised e)
            end
          else
            Continue ({| ecg_buffer := ecg_buffer;
                         sample_count := sample_count;
                         mapping := mapping s |}, [])
      end
  end.

(** The loop over the lines read, with all the messages sent. *)
Fixpoint run
  (detect_peaks : list num -> list Z) (s : state) (lines : list (option num))
  : outcome (state * list event) :=
  match lines with
  | [] => Continue (s, [])
  | line :: rest =>
      match iteration detect_peaks s line with
      | Stop f => Stop f
      | Continue (s', events) =>
          match run detect_peaks s' rest with
          | Stop f => Stop f
          | Continue (s'', events') => Continue (s'', events ++ events')
          end
      end
  end.

(** The samples among the lines read, in order. *)
Fixpoint samples_of (lines : list (option num)) : list num :=
  match lines with
  | [] => []
  | Some ecg_value :: rest => ecg_value :: samples_of rest
  | None :: rest => samples_of rest
  end.

End SerialLoop.

(** *** Buffers of [bridge_live_test3.py] (90-98)
<<
    ecg_buffer.append(ecg_value)
    time_buffer.append(timestamp)
    if len(ecg_buffer) > buffer_size:
        ecg_buffer = ecg_buffer[-buffer_size:]
        time_buffer = time_buffer[-buffer_size:]
        ... peak detection and the detection pass ...
>>
    The flag returned says whether the iteration went on to detect peaks. *)
Module LSLBuffer.

Definition append_trim
  (buffer_size : nat) (buffers : list num * list num) (sample : num * num)
  : (list num * list num) * bool :=
  let ecg_buffer := fst buffers ++ [fst sample] in
  let time_buffer := snd buffers ++ [snd sample] in
  if (buffer_size <? length ecg_buffer)%nat
  then ((slice_last buffer_size ecg_buffer, slice_last buffer_size time_buffer), true)
  else ((ecg_buffer, time_buffer), false).

(** The buffers after a sequence of samples, and the flags of the
    iterations in order. *)
Definition feed
  (buffer_size : nat) (buffers : list num * list num) (samples : list (num * num))
  : (list num * list num) * list bool :=
  fold_left
    (fun acc sample =>
       let r := append_trim buffer_size (fst acc) sample in
       (fst r, snd acc ++ [snd r]))
    samples (buffers, []).

End LSLBuffer.

(** *** Main loop of [bridge_live_test3.py] (89-141)
<<
    while True:
        sample, timestamp = inlet.pull_sample()
        ecg_value = sample[0]
        ecg_buffer.append(ecg_value)
        time_buffer.append(timestamp)
        if len(ecg_buffer) > buffer_size:
            ecg_buffer = ecg_buffer[-buffer_size:]
            time_buffer = time_buffer[-buffer_size:]
            ...
            r_peaks, _ = find_peaks(np.array(ecg_buffer), height=0.8, distance=distance_samples)
            if len(r_peaks) >= 2:
                peak_times = np.array(time_buffer)[r_peaks]
                ... the detection pass ...
>>
    [buffer_size] is [fs * 10] for the rate the stream announces.
    [detect_peaks] stands for [find_peaks] on the first buffer followed by
    the look-up of the peaks in the second. *)
Module LSLLoop.

Record state : Type := State {
  ecg_buffer : list num;
  time_buffer : list num;
  mapping : mapping_state
}.

Definition initial : state :=
  {| ecg_buffer := []; time_buffer := []; mapping := initial_state |}.

Definition iteration
  (buffer_size : nat) (detect_peaks : list num -> list num -> list num)
  (s : state) (sample : num * num) : result (state * list event) :=
  let r := LSLBuffer.append_trim buffer_size (ecg_buffer s, time_buffer s) sample in
  let ecg_buffer := fst (fst r) in
  let time_buffer := snd (fst r) in
  if snd r then
    r' <- LiveLSL.detection_pass LiveLSL.bpm_change_threshold (mapping s)
            (detect_peaks ecg_buffer time_buffer) ;;
    Ok ({| ecg_buffer := ecg_buffer; time_buffer := time_buffer; mapping := fst r' |},
        snd r')
  else
    Ok ({| ecg_buffer := ecg_buffer; time_buffer := time_buffer; mapping := mapping s |},
        []).

(** The loop over the samples pulled, with all the messages sent. *)
Fixpoint run
  (buffer_size : nat) (detect_peaks : list num -> list num -> list num)
  (s : state) (samples : list (num * num)) : result (state * list event) :=
  match samples with
  | [] => Ok (s, [])
  | sample :: rest =>
      r <- iteration buffer_size detect_peaks s sample ;;
      r' <- run buffer_size detect_peaks (fst r) rest ;;
      Ok (fst r', snd r ++ snd r')
  end.

End LSLLoop.

(** *** [bridge_prerecorded_modulation.py]: analysis (46-62) and playback
    (78-108)
<<
    if len(r_peaks) < 2:
        raise ValueError("Not enough R-peaks detected. Try adjusting the threshold.")
    peak_times = time_col[r_peaks]
    rr_intervals = np.diff(peak_times)
    smoothed_rr = moving_median(rr_intervals, window_size=3)
    smoothed_bpm = 60 / smoothed_rr
    min_bpm, max_bpm = np.min(smoothed_bpm), np.max(smoothed_bpm)
    ...
    last_cc113 = 0
    for i, peak_time in enumerate(peak_times):
        if peak_heights[i] < 0.8:
            ...
            continue
        bpm_value = smoothed_bpm[i] if i < len(smoothed_rr) else smoothed_bpm[-1]
        target_cc = bpm_to_cc113(bpm_value)
        cc_value = last_cc113
        while cc_value != target_cc:
            ...
>>
    A peak is the pair of its time and its height, the two arrays
    [find_peaks] returns side by side. *)
Module PrerecordedLoop.

Record analysis : Type := Analysis {
  smoothed_bpm : list num;
  min_bpm : num;
  max_bpm : num
}.

Definition analyse (peak_times : list num) : result analysis :=
  if (length peak_times <? 2)%nat then Raise ValueError
  else
    smoothed_rr <- moving_median (np_diff peak_times) 3 ;;
    let smoothed_bpm := bpm_of_rr smoothed_rr in
    min_bpm <- np_min smoothed_bpm ;;
    max_bpm <- np_max smoothed_bpm ;;
    Ok {| smoothed_bpm := smoothed_bpm; min_bpm := min_bpm; max_bpm := max_bpm |}.

(** [smoothed_bpm[i] if i < len(smoothed_rr) else smoothed_bpm[-1]] *)
Definition bpm_at (smoothed_bpm : list num) (i : nat) : num :=
  if (i <? length smoothed_bpm)%nat
  then nth i smoothed_bpm NaN
  else last smoothed_bpm NaN.

(** The [while] loop run to its end: it needs no more iterations than the
    distance to cover. *)
Fixpoint cc_ramp_from (n : nat) (glide_speed : Q) (target_cc cc_value : Z)
  : Z * list event :=
  match n with
  | O => (cc_value, [])
  | S k =>
      if cc_value =? target_cc then (cc_value, [])
      else
        let cc_value := Prerecorded.cc_step glide_speed target_cc cc_value in
        let r := cc_ramp_from k glide_speed target_cc cc_value in
        (fst r, ControlChange 113 cc_value :: snd r)
  end.

Definition cc_ramp (glide_speed : Q) (target_cc cc_value : Z) : Z * list event :=
  cc_ramp_from (Z.to_nat (Z.abs (target_cc - cc_value))) glide_speed target_cc cc_value.

(** One turn of the [for] loop: the new [last_cc113] and the messages
    sent. *)
Definition play_peak
  (a : analysis) (last_cc113 : Z) (i : nat) (peak_height : num)
  : result (Z * list event) :=
  if Num.ltb peak_height (Fin (8 # 10)) then Ok (last_cc113, [])
  else
    let bpm_value := bpm_at (smoothed_bpm a) i in
    target_cc <- bpm_to_cc113 (min_bpm a) (max_bpm a) bpm_value ;;
    Ok (cc_ramp Prerecorded.glide_speed target_cc last_cc113).

Fixpoint play_from
  (a : analysis) (last_cc113 : Z) (i : nat) (peak_heights : list num)
  : result (Z * list event) :=
  match peak_heights with
  | [] => Ok (last_cc113, [])
  | h :: rest =>
      r <- play_peak a last_cc113 i h ;;
      r' <- play_from a (fst r) (S i) rest ;;
      Ok (fst r', snd r ++ snd r')
  end.

(** The script from the peaks on: [last_cc113] at the end and every
    message sent. *)
Definition play (peaks : list (num * num)) : result (Z * list event) :=
  a <- analyse (map fst peaks) ;;
  play_from a 0 0 (map snd peaks).

End PrerecordedLoop.

(** * Properties *)

Lemma Ok_inj {A : Type} (a b : A) : Ok a = Ok b -> a = b.
Proof. intros H. injection H as H. exact H. Qed.

(** ** Rounding *)

Section Rounding.

Local Open Scope Q_scope.

Lemma inject_Z_succ (z : Z) : inject_Z (z + 1) == inject_Z z + 1.
Proof. rewrite inject_Z_plus. reflexivity. Qed.

Lemma floor_frac_bounds (q : Q) :
  0 <= q - inject_Z (Qfloor q) /\ q - inject_Z (Qfloor q) < 1.
Proof.
  pose proof (Qfloor_le q) as Hle.
  pose proof (Qlt_floor q) as Hlt.
  rewrite inject_Z_succ in Hlt.
  split; lra.
Qed.

(** The rounded value is within one half of the argument. *)
Lemma round_half_even_bounds (q : Q) :
  inject_Z (Num.round_half_even q) - (1 # 2) <= q
  /\ q <= inject_Z (Num.round_half_even q) + (1 # 2).
Proof.
  unfold Num.round_half_even.
  destruct (floor_frac_bounds q) as [H0 H1].
  destruct (Qcompare_spec (q - inject_Z (Qfloor q)) (1 # 2)) as [He | Hl | Hg].
  - destruct (Z.even (Qfloor q)); rewrite ?inject_Z_succ; split; lra.
  - split; lra.
  - rewrite inject_Z_succ. split; lra.
Qed.

Lemma round_half_even_mono (p q : Q) :
  p <= q -> (Num.round_half_even p <= Num.round_half_even q)%Z.
Proof.
  intros Hpq.
  pose proof (Qfloor_resp_le _ _ Hpq) as Hf.
  destruct (Z.eq_dec (Qfloor p) (Qfloor q)) as [Heq | Hne].
  - unfold Num.round_half_even. rewrite <- Heq.
    destruct (Qcompare_spec (p - inject_Z (Qfloor p)) (1 # 2));
      destruct (Qcompare_spec (q - inject_Z (Qfloor p)) (1 # 2));
      try lra; destruct (Z.even (Qfloor p)); lia.
  - assert (Hlt : (Qfloor p + 1 <= Qfloor q)%Z) by lia.
    transitivity (Qfloor p + 1)%Z; [| transitivity (Qfloor q); [exact Hlt |]].
    + unfold Num.round_half_even.
      destruct (Qcompare (p - inject_Z (Qfloor p)) (1 # 2)); try lia.
      destruct (Z.even (Qfloor p)); lia.
    + unfold Num.round_half_even.
      destruct (Qcompare (q - inject_Z (Qfloor q)) (1 # 2)); try lia.
      destruct (Z.even (Qfloor q)); lia.
Qed.

Lemma round_half_even_Z (q : Q) (z : Z) :
  q == inject_Z z -> Num.round_half_even q = z.
Proof.
  intros Hq. unfold Num.round_half_even.
  rewrite (Qfloor_comp _ _ Hq), Qfloor_Z.
  destruct (Qcompare_spec (q - inject_Z z) (1 # 2)) as [He | Hl | Hg].
  - lra.
  - reflexivity.
  - lra.
Qed.

Lemma round_half_even_between (q : Q) (a b : Z) :
  inject_Z a <= q -> q <= inject_Z b ->
  (a <= Num.round_half_even q <= b)%Z.
Proof.
  intros Ha Hb.
  pose proof (round_half_even_mono _ _ Ha) as Hlo.
  pose proof (round_half_even_mono _ _ Hb) as Hhi.
  rewrite (round_half_even_Z (inject_Z a) a) in Hlo by reflexivity.
  rewrite (round_half_even_Z (inject_Z b) b) in Hhi by reflexivity.
  split; assumption.
Qed.

End Rounding.

(** ** Discrete glide *)

Section DiscreteGlide.

(** Rounding a fifth of an integer. *)
Lemma round_fifth_bounds (d : Z) :
  let r := Num.round_half_even (inject_Z d * note_glide_speed) in
  10 * r - 5 <= 2 * d <= 10 * r + 5.
Proof.
  intros r.
  destruct (round_half_even_bounds (inject_Z d * note_glide_speed)) as [Hl Hu].
  fold r in Hl, Hu.
  unfold note_glide_speed, Qle, Qminus, Qplus, Qmult, Qopp, inject_Z in Hl, Hu.
  simpl in Hl, Hu. lia.
Qed.

Lemma glide_step_pos (d : Z) :
  0 < d -> 1 <= glide_step note_glide_speed d <= d.
Proof.
  intros Hd. unfold glide_step.
  pose proof (round_fifth_bounds d) as Hr. cbv zeta in Hr.
  destruct (Z.eqb_spec (Num.round_half_even (inject_Z d * note_glide_speed)) 0) as [H0 | H0];
    destruct (Z.eqb_spec d 0); simpl; try lia.
Qed.

Lemma glide_step_neg (d : Z) :
  d < 0 -> d <= glide_step note_glide_speed d <= -1.
Proof.
  intros Hd. unfold glide_step.
  pose proof (round_fifth_bounds d) as Hr. cbv zeta in Hr.
  destruct (Z.eqb_spec (Num.round_half_even (inject_Z d * note_glide_speed)) 0) as [H0 | H0];
    destruct (Z.eqb_spec d 0); simpl; try lia.
Qed.

Lemma glide_step_zero : glide_step note_glide_speed 0 = 0.
Proof. reflexivity. Qed.

Lemma glide_at_target (target_note : Z) :
  glide note_glide_speed target_note target_note = target_note.
Proof. unfold glide. rewrite Z.sub_diag, glide_step_zero. lia. Qed.

(** One step shortens a non-zero distance by at least one and never
    changes its sign. *)
Lemma glide_distance (target_note current_note : Z) :
  current_note <> target_note ->
  Z.abs (target_note - glide note_glide_speed target_note current_note)
  <= Z.abs (target_note - current_note) - 1.
Proof.
  intros Hne. unfold glide.
  destruct (Z.lt_total current_note target_note) as [Hlt | [Heq | Hgt]].
  - pose proof (glide_step_pos (target_note - current_note)). lia.
  - contradiction.
  - pose proof (glide_step_neg (target_note - current_note)). lia.
Qed.

Lemma glide_stays_between (target_note current_note : Z) :
  current_note <> target_note ->
  Z.min current_note target_note
  <= glide note_glide_speed target_note current_note
  <= Z.max current_note target_note.
Proof.
  intros Hne. unfold glide.
  destruct (Z.lt_total current_note target_note) as [Hlt | [Heq | Hgt]].
  - pose proof (glide_step_pos (target_note - current_note)). lia.
  - contradiction.
  - pose proof (glide_step_neg (target_note - current_note)). lia.
Qed.

Lemma glide_iter_at_target (n : nat) (target_note : Z) :
  glide_iter n note_glide_speed target_note target_note = target_note.
Proof.
  induction n as [| n IH]; simpl; [reflexivity |].
  rewrite glide_at_target. exact IH.
Qed.

Lemma glide_iter_converges (n : nat) :
  forall target_note current_note,
    Z.abs (target_note - current_note) <= Z.of_nat n ->
    glide_iter n note_glide_speed target_note current_note = target_note.
Proof.
  induction n as [| n IH]; intros target_note current_note Hd.
  - simpl. lia.
  - simpl. destruct (Z.eq_dec current_note target_note) as [-> | Hne].
    + rewrite glide_at_target. apply glide_iter_at_target.
    + apply IH. pose proof (glide_distance target_note current_note Hne). lia.
Qed.

End DiscreteGlide.

(** ** Mapper: clipping and normalisation *)

Section Normalisation.

Local Open Scope Q_scope.

Lemma Qle_bool_false (a b : Q) : Qle_bool a b = false -> b < a.
Proof.
  intros H. apply Qnot_le_lt. intros Hle.
  apply Qle_bool_iff in Hle. congruence.
Qed.

Lemma Qeq_bool_false (a b : Q) : ~ a == b -> Qeq_bool a b = false.
Proof.
  intros H. destruct (Qeq_bool a b) eqn:E; [| reflexivity].
  apply Qeq_bool_iff in E. contradiction.
Qed.

(** Case analysis on every rational comparison in sight. *)
Ltac qcases :=
  repeat match goal with
    | H : context [Qle_bool ?a ?b] |- _ =>
        let E := fresh "E" in
        destruct (Qle_bool a b) eqn:E;
        [apply Qle_bool_iff in E | apply Qle_bool_false in E];
        simpl in H
    | |- context [Qle_bool ?a ?b] =>
        let E := fresh "E" in
        destruct (Qle_bool a b) eqn:E;
        [apply Qle_bool_iff in E | apply Qle_bool_false in E];
        simpl
    end.




Lemma normalize_clip (lo hi : Q) (bpm : num) (c : Q) :
  lo < hi -> Num.clip bpm (Fin lo) (Fin hi) = Fin c ->
  normalize bpm (Fin lo) (Fin hi) = Fin ((c + - lo) / (hi + - lo)).
Proof.
  intros Hr Hc. unfold normalize. rewrite Hc. simpl.
  rewrite Qeq_bool_false; [reflexivity | lra].
Qed.

Lemma fraction_bounds (lo hi c : Q) :
  lo < hi -> lo <= c -> c <= hi ->
  0 <= (c + - lo) / (hi + - lo) /\ (c + - lo) / (hi + - lo) <= 1.
Proof.
  intros Hr H1 H2. split.
  - apply Qle_shift_div_l; lra.
  - apply Qle_shift_div_r; lra.
Qed.


Lemma fraction_low (lo hi c : Q) :
  lo < hi -> c == lo -> (c + - lo) / (hi + - lo) == 0.
Proof. intros Hr Hc. rewrite Hc. field. lra. Qed.

Lemma fraction_high (lo hi c : Q) :
  lo < hi -> c == hi -> (c + - lo) / (hi + - lo) == 1.
Proof. intros Hr Hc. rewrite Hc. field. lra. Qed.

(** A degenerate range normalises to [nan], whatever the input. *)
Lemma normalize_degenerate (bpm : num) (m : Q) :
  normalize bpm (Fin m) (Fin m) = NaN.
Proof.
  unfold normalize, Num.clip, Num.maximum, Num.minimum.
  assert (Hz : Num.div (Fin (m + - m)) (Fin (m + - m)) = NaN).
  { simpl. assert (H0 : m + - m == 0) by lra.
    rewrite (proj2 (Qeq_bool_iff _ _) H0).
    unfold Num.signed_inf. rewrite H0. reflexivity. }
  destruct bpm as [b | | |]; simpl; try reflexivity.
  - destruct (Qle_bool m b) eqn:E1; simpl.
    + destruct (Qle_bool b m) eqn:E2; simpl.
      * apply Qle_bool_iff in E1, E2.
        assert (H0 : b + - m == 0) by lra.
        assert (H1 : m + - m == 0) by lra.
        rewrite (proj2 (Qeq_bool_iff _ _) H1).
        unfold Num.signed_inf. rewrite H0. reflexivity.
      * exact Hz.
    + rewrite (proj2 (Qle_bool_iff m m) (Qle_refl m)). exact Hz.
  - exact Hz.
  - rewrite (proj2 (Qle_bool_iff m m) (Qle_refl m)). exact Hz.
Qed.

Lemma quotient_unit (x d t : Q) :
  (0 <= x /\ x <= d) \/ (d <= x /\ x <= 0) ->
  (if Qeq_bool d 0 then Num.signed_inf x else Fin (x / d)) = Fin t ->
  0 <= t /\ t <= 1.
Proof.
  intros Hx. destruct (Qeq_bool d 0) eqn:Ed.
  - unfold Num.signed_inf. destruct (x ?= 0); discriminate.
  - intros H. injection H as <-.
    assert (Hd : ~ d == 0).
    { intros Hd0. apply Qeq_bool_iff in Hd0. congruence. }
    destruct (Qlt_le_dec 0 d) as [Hpos | Hneg].
    + split; [apply Qle_shift_div_l | apply Qle_shift_div_r]; lra.
    + assert (Hlt : d < 0) by (destruct (Qeq_dec d 0); [contradiction | lra]).
      assert (Heq : x / d == (- x) / (- d)) by (field; exact Hd).
      rewrite Heq.
      split; [apply Qle_shift_div_l | apply Qle_shift_div_r]; lra.
Qed.

(** Whatever the three arguments (reversed or infinite ranges included), a
    finite normalised value lies in the unit interval. *)
Lemma normalize_unit (bpm min_bpm max_bpm : num) (t : Q) :
  normalize bpm min_bpm max_bpm = Fin t -> 0 <= t /\ t <= 1.
Proof.
  destruct min_bpm as [l | | |], max_bpm as [h | | |], bpm as [b | | |];
    unfold normalize, Num.clip, Num.maximum, Num.minimum; simpl;
    try discriminate.
  all: qcases; simpl; try discriminate.
  all: try (intros H; injection H as <-; split; lra).
  all: apply quotient_unit; lra.
Qed.

End Normalisation.

(** ** Mapper: note, velocity, controller value *)

Section Mapper.

Local Open Scope Q_scope.

Lemma note_of_clip (lo hi : Q) (bpm : num) (c : Q) (mn mx : Z) :
  lo < hi -> Num.clip bpm (Fin lo) (Fin hi) = Fin c ->
  bpm_to_note_quantized bpm (Fin lo) (Fin hi) mn mx
  = Ok (Num.round_half_even
          (inject_Z mn + (c + - lo) / (hi + - lo) * inject_Z (mx - mn))).
Proof.
  intros Hr Hc. unfold bpm_to_note_quantized.
  rewrite (normalize_clip lo hi bpm c Hr Hc). reflexivity.
Qed.

Lemma inject_Z_sub (a b : Z) : inject_Z (b - a) == inject_Z b - inject_Z a.
Proof. unfold Z.sub. rewrite inject_Z_plus, inject_Z_opp. reflexivity. Qed.

Lemma scale_bounds (t : Q) (mn mx : Z) :
  (mn <= mx)%Z -> 0 <= t -> t <= 1 ->
  inject_Z mn <= inject_Z mn + t * inject_Z (mx - mn)
  /\ inject_Z mn + t * inject_Z (mx - mn) <= inject_Z mx.
Proof.
  intros Hm H0 H1. rewrite inject_Z_sub.
  rewrite Zle_Qle in Hm. split; nra.
Qed.


End Mapper.



Section Velocity.

Local Open Scope Q_scope.

(** The integer part of [k * sqrt t] that the velocity mapper adds to
    [min_velocity], for [k = max_velocity - min_velocity]. *)
Lemma velocity_of_clip (lo hi : Q) (bpm : num) (c : Q) (a b : Z) :
  lo < hi -> (0 <= a <= b)%Z ->
  Num.clip bpm (Fin lo) (Fin hi) = Fin c -> lo <= c -> c <= hi ->
  bpm_to_velocity bpm (Fin lo) (Fin hi) a b
  = Ok (a + Z.sqrt (Qfloor (inject_Z ((b - a) * (b - a))
                            * ((c + - lo) / (hi + - lo)))))%Z.
Proof.
  intros Hr Hab Hc H1 H2. unfold bpm_to_velocity.
  rewrite (normalize_clip lo hi bpm c Hr Hc).
  destruct (fraction_bounds lo hi c Hr H1 H2) as [H0 _].
  unfold int_affine_sqrt, floor_mul_sqrt.
  rewrite (proj2 (Qle_bool_iff _ _) H0).
  destruct (Z.leb_spec 0 (b - a)) as [_ | Hk]; [| lia].
  match goal with
  | |- context [Z.sqrt ?F] => pose proof (Z.sqrt_nonneg F) as Hs
  end.
  destruct (Z.leb_spec 0 (a + Z.sqrt
    (Qfloor (inject_Z ((b - a) * (b - a)) * ((c + - lo) / (hi + - lo))))))
    as [_ | Hneg]; [reflexivity | lia].
Qed.

Lemma scaled_floor_bounds (k : Z) (t : Q) :
  (0 <= k)%Z -> 0 <= t -> t <= 1 ->
  (0 <= Qfloor (inject_Z (k * k) * t) <= k * k)%Z.
Proof.
  intros Hk H0 H1.
  assert (HK : 0 <= inject_Z (k * k)).
  { change 0 with (inject_Z 0). rewrite <- Zle_Qle. nia. }
  split.
  - rewrite <- (Qfloor_Z 0). apply Qfloor_resp_le. change (inject_Z 0) with 0. nra.
  - rewrite <- (Qfloor_Z (k * k)) at 2. apply Qfloor_resp_le. nra.
Qed.

Lemma sqrt_floor_bounds (k : Z) (t : Q) :
  (0 <= k)%Z -> 0 <= t -> t <= 1 ->
  (0 <= Z.sqrt (Qfloor (inject_Z (k * k) * t)) <= k)%Z.
Proof.
  intros Hk H0 H1.
  destruct (scaled_floor_bounds k t Hk H0 H1) as [Ha Hb].
  split; [apply Z.sqrt_nonneg |].
  apply Z.le_trans with (Z.sqrt (k * k)).
  - apply Z.sqrt_le_mono. assumption.
  - rewrite Z.sqrt_square by assumption. lia.
Qed.




End Velocity.

(** ** The square root of the velocity curve

    [floor_mul_sqrt] and [ceil_mul_sqrt] are computed with integer square
    roots; over the real numbers they are the floor and the ceiling of
    [k * sqrt q], and [int_affine_sqrt a k] is [a + k * sqrt q] cut toward
    zero, which is what [int(a + k * np.sqrt(q))] denotes. *)

Section SquareRoot.

Lemma Q2R_inject_Z (z : Z) : Q2R (inject_Z z) = IZR z.
Proof. unfold Q2R. simpl. field. Qed.

Lemma sqrt_floor_real (r : Q) (x : R) :
  (0 <= r)%Q -> (0 <= x)%R -> (x * x = Q2R r)%R ->
  (IZR (Z.sqrt (Qfloor r)) <= x < IZR (Z.sqrt (Qfloor r)) + 1)%R.
Proof.
  intros Hr Hx Hsq.
  assert (HF : 0 <= Qfloor r).
  { rewrite <- (Qfloor_Z 0). apply Qfloor_resp_le. exact Hr. }
  pose proof (Z.sqrt_spec _ HF) as [Hs1 Hs2].
  pose proof (Z.sqrt_nonneg (Qfloor r)) as Hs0.
  set (s := Z.sqrt (Qfloor r)) in *.
  pose proof (Qle_Rle _ _ (Qfloor_le r)) as Hfl.
  pose proof (Qlt_Rlt _ _ (Qlt_floor r)) as Hfu.
  rewrite Q2R_inject_Z in Hfl, Hfu.
  assert (Hs3 : Qfloor r + 1 <= (s + 1) * (s + 1)) by (unfold Z.succ in Hs2; lia).
  clear Hs2.
  apply IZR_le in Hs1, Hs0, Hs3.
  rewrite mult_IZR in Hs1. rewrite mult_IZR, !plus_IZR in Hs3.
  rewrite plus_IZR in Hfu. rewrite <- Hsq in Hfl, Hfu.
  clearbody s.
  split.
  - apply Rsqr_incr_0_var; [unfold Rsqr; Lra.lra | exact Hx].
  - apply Rsqr_incrst_0; [unfold Rsqr; Lra.lra | exact Hx | Lra.lra].
Qed.

Lemma sqrt_up_ceiling_real (r : Q) (x : R) :
  (0 <= r)%Q -> (0 <= x)%R -> (x * x = Q2R r)%R ->
  (IZR (Z.sqrt_up (Qceiling r)) - 1 < x <= IZR (Z.sqrt_up (Qceiling r)))%R.
Proof.
  intros Hr Hx Hsq.
  pose proof (Qle_Rle _ _ (Qle_ceiling r)) as Hcu.
  pose proof (Qlt_Rlt _ _ (Qceiling_lt r)) as Hcl.
  rewrite Q2R_inject_Z in Hcu, Hcl. rewrite minus_IZR in Hcl.
  destruct (Z_lt_le_dec 0 (Qceiling r)) as [Hpos | Hnp].
  - pose proof (Z.sqrt_up_spec _ Hpos) as [Hs1 Hs2].
    pose proof (proj2 (Z.sqrt_up_pos _) Hpos) as Hs0.
    set (c := Z.sqrt_up (Qceiling r)) in *. clearbody c.
    rewrite <- Hsq in Hcu, Hcl.
    assert (Hs1' : Z.pred c * Z.pred c <= Qceiling r - 1) by lia.
    apply IZR_le in Hs1', Hs2. apply IZR_lt in Hs0.
    unfold Z.pred in Hs1'.
    rewrite mult_IZR, plus_IZR, minus_IZR in Hs1'. rewrite mult_IZR in Hs2.
    split.
    + apply Rsqr_incrst_0; [unfold Rsqr; Lra.lra | Lra.lra | exact Hx].
    + apply Rsqr_incr_0_var; [unfold Rsqr; Lra.lra | Lra.lra].
  - rewrite (Z.sqrt_up_eqn0 _ Hnp).
    apply IZR_le in Hnp. rewrite <- Hsq in Hcu.
    assert (Hx0 : (x * x <= 0)%R) by Lra.lra.
    assert (x = 0)%R by Lra.nra.
    Lra.lra.
Qed.

Lemma mul_sqrt_square (k : Z) (q : Q) :
  (0 <= q)%Q ->
  ((IZR k * R_sqrt.sqrt (Q2R q)) * (IZR k * R_sqrt.sqrt (Q2R q)) = Q2R (inject_Z (k * k) * q))%R.
Proof.
  intros Hq. rewrite Q2R_mult, Q2R_inject_Z, mult_IZR.
  assert (H0 : (0 <= Q2R q)%R).
  { replace 0%R with (Q2R 0) by (unfold Q2R; simpl; Lra.lra). apply Qle_Rle. exact Hq. }
  pose proof (R_sqrt.sqrt_sqrt _ H0). Lra.nra.
Qed.

Lemma floor_ceil_mul_sqrt_real (k : Z) (q : Q) :
  (0 <= q)%Q ->
  let x := (IZR k * R_sqrt.sqrt (Q2R q))%R in
  (IZR (floor_mul_sqrt k q) <= x < IZR (floor_mul_sqrt k q) + 1)%R
  /\ (IZR (ceil_mul_sqrt k q) - 1 < x <= IZR (ceil_mul_sqrt k q))%R.
Proof.
  intros Hq x.
  assert (H0 : (0 <= Q2R q)%R).
  { replace 0%R with (Q2R 0) by (unfold Q2R; simpl; Lra.lra). apply Qle_Rle. exact Hq. }
  pose proof (R_sqrt.sqrt_pos (Q2R q)) as Hs.
  assert (Hr : (0 <= inject_Z (k * k) * q)%Q).
  { apply Qmult_le_0_compat; [| exact Hq].
    change 0%Q with (inject_Z 0). rewrite <- Zle_Qle. nia. }
  unfold floor_mul_sqrt, ceil_mul_sqrt. cbv zeta.
  destruct (Z.leb_spec 0 k) as [Hk | Hk].
  - assert (Hx : (0 <= x)%R).
    { apply IZR_le in Hk. unfold x. Lra.nra. }
    split.
    + apply sqrt_floor_real; [exact Hr | exact Hx | apply mul_sqrt_square; exact Hq].
    + apply sqrt_up_ceiling_real; [exact Hr | exact Hx | apply mul_sqrt_square; exact Hq].
  - assert (Hx : (0 <= - x)%R).
    { apply IZR_lt in Hk. unfold x. Lra.nra. }
    assert (Hsq : (- x * - x = Q2R (inject_Z (k * k) * q))%R).
    { rewrite <- (mul_sqrt_square k q Hq). unfold x. ring. }
    pose proof (sqrt_floor_real _ _ Hr Hx Hsq) as Hf.
    pose proof (sqrt_up_ceiling_real _ _ Hr Hx Hsq) as Hc.
    rewrite !opp_IZR. split; Lra.lra.
Qed.


Lemma int_affine_sqrt_real (a k : Z) (q : Q) (y : R) :
  (0 <= q)%Q ->
  y = (IZR a + IZR k * R_sqrt.sqrt (Q2R q))%R ->
  exists r,
    int_affine_sqrt a k (Fin q) = Ok r
    /\ (0 <= y -> IZR r <= y < IZR r + 1)%R
    /\ (y < 0 -> IZR r - 1 < y <= IZR r)%R.
Proof.
  intros Hq Hy. unfold int_affine_sqrt.
  rewrite (proj2 (Qle_bool_iff _ _) Hq).
  eexists. split; [reflexivity |].
  destruct (floor_ceil_mul_sqrt_real k q Hq) as [Hf Hc]. cbv zeta in Hf, Hc.
  destruct (Z.leb_spec 0 (a + floor_mul_sqrt k q)) as [Hlo | Hlo].
  - apply IZR_le in Hlo. rewrite plus_IZR in *. split; intros; Lra.lra.
  - assert (Hlo' : a + floor_mul_sqrt k q + 1 <= 0) by lia.
    apply IZR_le in Hlo'. rewrite !plus_IZR in *. split; intros; Lra.lra.
Qed.

End SquareRoot.




(** C1, as amended.  When [max_bpm == min_bpm] no mapper returns a value,
    whatever the bpm: the normalisation is [0/0], a [nan], and converting it
    to an integer raises [ValueError].  There is no midpoint fallback. *)
Theorem degenerate_range_raises (bpm : num) (m : Q) (lo hi : Z) :
  bpm_to_note_quantized bpm (Fin m) (Fin m) lo hi = Raise ValueError
  /\ bpm_to_velocity bpm (Fin m) (Fin m) lo hi = Raise ValueError
  /\ bpm_to_cc113 (Fin m) (Fin m) bpm = Raise ValueError.
Proof.
  unfold bpm_to_note_quantized, bpm_to_velocity, bpm_to_cc113.
  rewrite normalize_degenerate. repeat split.
Qed.

(** C1 as stated fails: with [min_bpm = max_bpm = 60] the three mappers
    raise at bpm 60 instead of returning the midpoints 66, 60 and 63 or 64
    of their output ranges. *)
Lemma degenerate_range_has_no_fallback :
  bpm_to_note_quantized (Fin 60) (Fin 60) (Fin 60) min_note max_note
    = Raise ValueError
  /\ bpm_to_velocity (Fin 60) (Fin 60) (Fin 60) min_velocity max_velocity
    = Raise ValueError
  /\ bpm_to_cc113 (Fin 60) (Fin 60) (Fin 60) = Raise ValueError.
Proof. repeat split. Qed.

(** C9.  With [glide_speed = 0.2], one glide step from [current_note]
    toward a different [target_note] lands in the closed interval between the
    two, moves by at least one, and is strictly closer to the target. *)
Theorem glide_never_overshoots (target_note current_note : Z) :
  current_note <> target_note ->
  let next := glide note_glide_speed target_note current_note in
  Z.min current_note target_note <= next <= Z.max current_note target_note
  /\ 1 <= Z.abs (next - current_note)
  /\ Z.abs (target_note - next) < Z.abs (target_note - current_note).
Proof.
  intros Hne next.
  pose proof (glide_stays_between target_note current_note Hne) as Hin.
  pose proof (glide_distance target_note current_note Hne) as Hcloser.
  fold next in Hin, Hcloser.
  split; [exact Hin |]. split; [| lia].
  destruct (Z.eq_dec next current_note) as [Heq | Hmove]; [| lia].
  rewrite Heq in Hcloser. lia.
Qed.

Lemma glide_never_overshoots_witness :
  48 <> 84
  /\ 48 <= glide note_glide_speed 84 48 <= 84
  /\ Z.abs (84 - glide note_glide_speed 84 48) < Z.abs (84 - 48).
Proof.
  assert (Hne : 48 <> 84) by discriminate.
  pose proof (glide_never_overshoots 84 48 Hne) as (Hin & _ & Hcloser).
  split; [exact Hne |]. split; [exact Hin | exact Hcloser].
Defined.

(** C4.  With [glide_speed = 0.2], repeating the glide step from any
    [current_note] different from [target_note] reaches the target within
    [|target_note - current_note| + 1] steps (in fact one fewer), and every
    longer run stays on it. *)
Theorem glide_converges (target_note current_note : Z) :
  current_note <> target_note ->
  (exists n : nat,
     Z.of_nat n <= Z.abs (target_note - current_note) + 1
     /\ glide_iter n note_glide_speed target_note current_note = target_note)
  /\ (forall n : nat,
        Z.abs (target_note - current_note) <= Z.of_nat n ->
        glide_iter n note_glide_speed target_note current_note = target_note).
Proof.
  intros Hne. split.
  - exists (Z.to_nat (Z.abs (target_note - current_note))). split; [lia |].
    apply glide_iter_converges. lia.
  - intros n Hn. apply glide_iter_converges. exact Hn.
Qed.

Lemma glide_converges_witness :
  48 <> 84 /\ glide_iter 37 note_glide_speed 84 48 = 84.
Proof.
  assert (Hne : 48 <> 84) by discriminate.
  split; [exact Hne |].
  apply (proj2 (glide_converges 84 48 Hne) 37%nat). vm_compute. discriminate.
Defined.

(** ** Continuous glide *)

Section ContinuousGlide.

Import Prerecorded.

Lemma cc_increment_pos (glide_speed : Q) (target_cc cc_value : Z) :
  1 <= cc_increment glide_speed target_cc cc_value.
Proof. unfold cc_increment. lia. Qed.

Lemma cc_step_progress (glide_speed : Q) (target_cc cc_value : Z) :
  cc_value <> target_cc ->
  let next := cc_step glide_speed target_cc cc_value in
  Z.min cc_value target_cc <= next <= Z.max cc_value target_cc
  /\ Z.abs (target_cc - next) <= Z.abs (target_cc - cc_value) - 1.
Proof.
  intros Hne next. unfold next, cc_step.
  pose proof (cc_increment_pos glide_speed target_cc cc_value).
  destruct (Z.ltb_spec cc_value target_cc); lia.
Qed.

Lemma cc_glide_at_target (fuel : nat) (glide_speed : Q) (target_cc : Z) :
  cc_glide fuel glide_speed target_cc target_cc = Some (target_cc, []).
Proof. destruct fuel; simpl; rewrite Z.eqb_refl; reflexivity. Qed.

End ContinuousGlide.

(** C5, as amended.  The CC glide loop steps [cc_value] toward [target_cc]
    by [max(1, int(|target_cc - cc_value| * glide_speed))], the product
    truncated and not rounded, never past the target.  For every
    [glide_speed] (those of (0, 1] among them) and all integers [cc_value]
    and [target_cc] (those of 0..127 among them) it stops after at most
    [|target_cc - cc_value|] iterations with [cc_value == target_cc], every
    value sent lying between the start and the target. *)
Theorem cc_glide_terminates
  (fuel : nat) (glide_speed : Q) (target_cc cc_value : Z) :
  Z.abs (target_cc - cc_value) <= Z.of_nat fuel ->
  exists sent,
    Prerecorded.cc_glide fuel glide_speed target_cc cc_value = Some (target_cc, sent)
    /\ Z.of_nat (length sent) <= Z.abs (target_cc - cc_value)
    /\ Forall (fun m => exists v, m = ControlChange 113 v
                        /\ Z.min cc_value target_cc <= v <= Z.max cc_value target_cc)
         sent.
Proof.
  revert cc_value.
  induction fuel as [| fuel IH]; intros cc_value Hd.
  - assert (cc_value = target_cc) as -> by lia.
    exists []. simpl. rewrite Z.eqb_refl. repeat split; [lia | constructor].
  - destruct (Z.eq_dec cc_value target_cc) as [-> | Hne].
    + exists []. rewrite cc_glide_at_target. repeat split; [simpl; lia | constructor].
    + simpl. destruct (Z.eqb_spec cc_value target_cc) as [| _]; [contradiction |].
      destruct (cc_step_progress glide_speed target_cc cc_value Hne) as [Hin Hcl].
      cbv zeta in Hin, Hcl.
      destruct (IH (Prerecorded.cc_step glide_speed target_cc cc_value))
        as (sent & Hrun & Hlen & Hall); [lia |].
      rewrite Hrun. eexists. split; [reflexivity |]. split; [simpl length; lia |].
      constructor.
      * eexists. split; [reflexivity | exact Hin].
      * eapply Forall_impl; [| exact Hall].
        intros m (v & -> & Hv). exists v. split; [reflexivity | lia].
Qed.

Lemma cc_glide_terminates_witness :
  Z.abs (127 - 0) <= Z.of_nat 127
  /\ exists sent,
       Prerecorded.cc_glide 127 Prerecorded.glide_speed 127 0 = Some (127, sent).
Proof.
  assert (Hfuel : Z.abs (127 - 0) <= Z.of_nat 127) by (vm_compute; discriminate).
  split; [exact Hfuel |].
  destruct (cc_glide_terminates 127 Prerecorded.glide_speed 127 0 Hfuel)
    as (sent & Hrun & _).
  exists sent. exact Hrun.
Defined.

(** C5 as stated fails: from 0 toward 15 at [glide_speed = 0.1] the loop
    first sends 1, its increment being [max(1, int(1.5)) = 1], where an
    increment of [max(1, round(1.5))] would be 2. *)
Lemma cc_increment_truncates :
  (0 < Prerecorded.glide_speed)%Q /\ (Prerecorded.glide_speed <= 1)%Q
  /\ Prerecorded.cc_increment Prerecorded.glide_speed 15 0 = 1
  /\ Prerecorded.spec_cc_increment Prerecorded.glide_speed 15 0 = 2
  /\ Prerecorded.cc_glide 15 Prerecorded.glide_speed 15 0
     = Some (15, map (ControlChange 113) [1; 2; 3; 4; 5; 6; 7; 8; 9; 10; 11; 12; 13; 14; 15]).
Proof. repeat split; discriminate. Qed.

(** ** Median filter *)

Section MedianFilter.

Lemma insert_sorted_repeat (c : num) (n : nat) :
  insert_sorted c (repeat c n) = repeat c (S n).
Proof.
  induction n as [| n IH]; simpl; [reflexivity |].
  destruct (Num.leb c c); [reflexivity |].
  rewrite IH. reflexivity.
Qed.

Lemma sort_repeat (c : num) (n : nat) : sort (repeat c n) = repeat c n.
Proof.
  unfold sort. induction n as [| n IH]; [reflexivity |].
  change (repeat c (S n)) with (c :: repeat c n) at 1.
  cbn [fold_right]. rewrite IH. apply insert_sorted_repeat.
Qed.

(** The median of three equal values is that value, [nan] included. *)
Lemma np_median_constant3 (c : num) : np_median [c; c; c] = c.
Proof.
  unfold np_median.
  destruct (existsb Num.is_nan [c; c; c]) eqn:E.
  - destruct c; simpl in E; try discriminate. reflexivity.
  - change [c; c; c] with (repeat c 3). rewrite sort_repeat. reflexivity.
Qed.

Lemma windows_length (w : nat) (padded : list num) (n : nat) :
  length (windows w padded n) = n.
Proof. unfold windows. rewrite length_map, length_seq. reflexivity. Qed.

Lemma skipn_repeat_const (c : num) (i m : nat) :
  skipn i (repeat c m) = repeat c (m - i).
Proof.
  revert m. induction i as [| i IH]; intros m.
  - rewrite Nat.sub_0_r. reflexivity.
  - destruct m as [| m]; simpl; [reflexivity | apply IH].
Qed.

Lemma window3_repeat (c : num) (n i : nat) :
  (i < n)%nat -> firstn 3 (skipn i (repeat c (S (S n)))) = [c; c; c].
Proof.
  intros Hi. rewrite skipn_repeat_const.
  replace (S (S n) - i)%nat with (S (S (S (n - i - 1)))) by lia.
  reflexivity.
Qed.

Lemma last_repeat (c d : num) (n : nat) : last (repeat c (S n)) d = c.
Proof.
  induction n as [| n IH]; [reflexivity |].
  change (repeat c (S (S n))) with (c :: repeat c (S n)).
  simpl last. simpl in IH. exact IH.
Qed.

Lemma map_const_seq (c : num) (f : nat -> num) (n : nat) :
  (forall i, (i < n)%nat -> f i = c) -> map f (seq 0 n) = repeat c n.
Proof.
  intros Hf.
  assert (H : forall a, (forall i, (a <= i < a + n)%nat -> f i = c) ->
                        map f (seq a n) = repeat c n).
  { clear Hf. induction n as [| n IH]; intros a Ha; simpl; [reflexivity |].
    rewrite Ha by lia. f_equal. apply IH. intros i Hi. apply Ha. lia. }
  apply H. intros i Hi. apply Hf. lia.
Qed.

Lemma moving_median_repeat (c : num) (n : nat) :
  moving_median (repeat c (S n)) 3 = Ok (repeat c (S n)).
Proof.
  unfold moving_median, np_pad_edge.
  change (3 =? 0)%nat with false. cbv iota.
  change (3 / 2)%nat with 1%nat. change (3 - 1 - 1)%nat with 1%nat.
  change (repeat c (S n)) with (c :: repeat c n) at 1.
  cbv beta iota. unfold bind.
  rewrite last_repeat, repeat_length.
  replace (repeat c 1 ++ repeat c (S n) ++ repeat c 1) with (repeat c (S (S (S n)))).
  2:{ change (repeat c 1) with [c].
      rewrite <- (repeat_cons (S n) c).
      reflexivity. }
  f_equal. unfold windows. rewrite map_map.
  apply map_const_seq. intros i Hi.
  rewrite (window3_repeat c (S n) i Hi). apply np_median_constant3.
Qed.

End MedianFilter.

(** C8.  On a non-empty array the edge-padded moving median of window 3
    returns an array of the same length, and returns a constant array
    unchanged. *)
Theorem moving_median_constant (data : list num) :
  data <> [] ->
  exists out,
    moving_median data 3 = Ok out
    /\ length out = length data
    /\ (forall c, data = repeat c (length data) -> out = data).
Proof.
  intros Hne. destruct data as [| x t]; [contradiction |].
  unfold moving_median, np_pad_edge.
  change (3 =? 0)%nat with false. cbv iota beta. unfold bind.
  eexists. split; [reflexivity |]. split.
  - rewrite length_map, windows_length. reflexivity.
  - intros c Hc.
    pose proof (moving_median_repeat c (length t)) as Hm.
    simpl length in Hc. rewrite <- Hc in Hm.
    unfold moving_median, np_pad_edge in Hm.
    change (3 =? 0)%nat with false in Hm. cbv iota beta in Hm. unfold bind in Hm.
    apply Ok_inj in Hm. exact Hm.
Qed.

Lemma moving_median_constant_witness :
  [Fin 1; Fin 1; Fin 1; Fin 1] <> []
  /\ moving_median [Fin 1; Fin 1; Fin 1; Fin 1] 3 = Ok [Fin 1; Fin 1; Fin 1; Fin 1].
Proof.
  assert (Hne : [Fin 1; Fin 1; Fin 1; Fin 1] <> []) by discriminate.
  split; [exact Hne |].
  destruct (moving_median_constant [Fin 1; Fin 1; Fin 1; Fin 1] Hne)
    as (out & Hrun & _ & Hconst).
  rewrite Hrun. f_equal. apply (Hconst (Fin 1)). reflexivity.
Defined.

(** ** Detection passes *)

Section UpdateGate.

Lemma gated_update_outcome
  (thr : num) (st st' : mapping_state) (bpm_value min_bpm max_bpm : num)
  (events : list event) :
  gated_update thr st bpm_value min_bpm max_bpm = Ok (st', events) ->
  (st' = st /\ events = [])
  \/ (exists note velocity,
        st' = {| current_note := Some note; last_bpm := Some bpm_value |}
        /\ events = [NoteOn note velocity; NoteOff note 0]).
Proof.
  unfold gated_update.
  destruct (gate_opens thr (last_bpm st) bpm_value).
  - destruct (bpm_to_note_quantized _ _ _ _ _) as [target |]; [| discriminate].
    destruct (bpm_to_velocity _ _ _ _ _) as [velocity |]; [| discriminate].
    simpl. intros H. apply Ok_inj in H. injection H as <- <-.
    right. eauto.
  - intros H. apply Ok_inj in H. injection H as <- <-. left. split; reflexivity.
Qed.

(** The gate is open on the first estimate: the emitted note is the
    mapper's target, whatever the threshold. *)
Lemma gated_update_first
  (thr : num) (st : mapping_state) (bpm_value min_bpm max_bpm : num)
  (target velocity : Z) :
  last_bpm st = None -> current_note st = None ->
  bpm_to_note_quantized bpm_value min_bpm max_bpm min_note max_note = Ok target ->
  bpm_to_velocity bpm_value min_bpm max_bpm min_velocity max_velocity = Ok velocity ->
  gated_update thr st bpm_value min_bpm max_bpm
  = Ok ({| current_note := Some target; last_bpm := Some bpm_value |},
        [NoteOn target velocity; NoteOff target 0]).
Proof.
  intros Hl Hc Hn Hv. unfold gated_update.
  rewrite Hl, Hc, Hn, Hv. simpl. rewrite glide_at_target. reflexivity.
Qed.

Variable I : Type.
Variable pass : mapping_state -> I -> result (mapping_state * list event).

Hypothesis pass_outcome :
  forall st input st' events,
    pass st input = Ok (st', events) ->
    st' = st \/ (current_note st' <> None /\ last_bpm st' <> None).

(** [current_note] and [last_bpm] are set together: at the start of every
    pass either both are [None] or neither is. *)
Lemma reachable_set_together (st : mapping_state) :
  reachable pass st -> (last_bpm st = None <-> current_note st = None).
Proof.
  induction 1 as [| st input st' events _ IH Hrun].
  - split; reflexivity.
  - destruct (pass_outcome _ _ _ _ Hrun) as [-> | [Hc Hl]]; [exact IH |].
    split; intros; contradiction.
Qed.

End UpdateGate.


Lemma lsl_pass_outcome (thr : num) (st : mapping_state) (peak_times : list num)
  (st' : mapping_state) (events : list event) :
  LiveLSL.detection_pass thr st peak_times = Ok (st', events) ->
  st' = st \/ (current_note st' <> None /\ last_bpm st' <> None).
Proof.
  unfold LiveLSL.detection_pass.
  destruct (2 <=? length peak_times)%nat.
  - destruct (moving_median _ _) as [smoothed_rr |]; [| discriminate]. simpl.
    destruct (np_min _) as [lo |]; [| discriminate]. simpl.
    destruct (np_max _) as [hi |]; [| discriminate]. simpl.
    intros H. apply gated_update_outcome in H.
    destruct H as [[-> _] | (n & v & -> & _)]; [left; reflexivity |].
    right. split; discriminate.
  - intros H. apply Ok_inj in H. injection H as <- <-. left. reflexivity.
Qed.

(** The sanity band of [bridge_live_test.py] and [bridge_live_test2.py]:
    an estimate below 30 or above 200 ends the pass at once. *)
Lemma serial_pass_sanity_band (thr : num) (st : mapping_state) (peaks : list Z) :
  LiveSerial.out_of_band (LiveSerial.current_bpm (LiveSerial.bpm_values_of peaks)) = true ->
  LiveSerial.detection_pass thr st peaks = Ok (st, []).
Proof.
  intros Hout. unfold LiveSerial.detection_pass. rewrite Hout.
  destruct (1 <? length peaks)%nat; reflexivity.
Qed.

(** C6.  A detection pass of the live bridges that is given fewer than two
    peaks returns normally, sends nothing, and leaves [current_note] and
    [last_bpm] as they were (the live bridges keep no controller value). *)
Theorem no_signal_pass_is_skipped
  (thr : num) (st : mapping_state) (peaks : list Z) (peak_times : list num) :
  (length peaks < 2)%nat -> (length peak_times < 2)%nat ->
  LiveSerial.detection_pass thr st peaks = Ok (st, [])
  /\ LiveLSL.detection_pass thr st peak_times = Ok (st, []).
Proof.
  intros H1 H2.
  unfold LiveSerial.detection_pass, LiveLSL.detection_pass.
  destruct (Nat.ltb_spec 1 (length peaks)) as [Hlt | _]; [lia |].
  destruct (Nat.leb_spec 2 (length peak_times)) as [Hle | _]; [lia |].
  split; reflexivity.
Qed.

Lemma no_signal_pass_is_skipped_witness :
  (length [1000] < 2)%nat /\ (length [Fin 1] < 2)%nat
  /\ LiveSerial.detection_pass LiveSerial.bpm_change_threshold
       {| current_note := Some 60; last_bpm := Some (Fin 72) |} [1000]
     = Ok ({| current_note := Some 60; last_bpm := Some (Fin 72) |}, [])
  /\ LiveLSL.detection_pass LiveLSL.bpm_change_threshold
       {| current_note := Some 60; last_bpm := Some (Fin 72) |} [Fin 1]
     = Ok ({| current_note := Some 60; last_bpm := Some (Fin 72) |}, []).
Proof.
  assert (H1 : (length [1000] < 2)%nat) by (simpl; lia).
  assert (H2 : (length [Fin 1] < 2)%nat) by (simpl; lia).
  split; [exact H1 |]. split; [exact H2 |]. split.
  - exact (proj1 (no_signal_pass_is_skipped LiveSerial.bpm_change_threshold
                    {| current_note := Some 60; last_bpm := Some (Fin 72) |}
                    [1000] [Fin 1] H1 H2)).
  - exact (proj2 (no_signal_pass_is_skipped LiveLSL.bpm_change_threshold
                    {| current_note := Some 60; last_bpm := Some (Fin 72) |}
                    [1000] [Fin 1] H1 H2)).
Defined.

(** C7, the failing pass.  [bridge_live_test3.py] has no sanity band: with
    peaks at 0 s, 2.5 s and 5.5 s the estimate is 20 BPM, below 30, and the
    pass still sends a note and records the estimate. *)
Theorem lsl_pass_keeps_implausible_estimate :
  exists bpm_value,
    LiveLSL.detection_pass LiveLSL.bpm_change_threshold initial_state
      [Fin 0; Fin (5 # 2); Fin (11 # 2)]
    = Ok ({| current_note := Some 48; last_bpm := Some (Fin bpm_value) |},
          [NoteOn 48 50; NoteOff 48 0])
    /\ (bpm_value == 20)%Q /\ (bpm_value < 30)%Q.
Proof. eexists. repeat split. Qed.



(** The same holds in [bridge_live_test3.py]. *)
Lemma lsl_first_estimate_plays_target
  (thr : num) (st : mapping_state) (peak_times smoothed_rr : list num)
  (min_bpm max_bpm_val : num) (target velocity : Z) :
  let smoothed_bpm := bpm_of_rr smoothed_rr in
  let bpm_value := last smoothed_bpm NaN in
  reachable (LiveLSL.detection_pass thr) st ->
  last_bpm st = None ->
  (2 <= length peak_times)%nat ->
  moving_median (np_diff peak_times) 3 = Ok smoothed_rr ->
  np_min smoothed_bpm = Ok min_bpm ->
  np_max smoothed_bpm = Ok max_bpm_val ->
  bpm_to_note_quantized bpm_value min_bpm max_bpm_val min_note max_note = Ok target ->
  bpm_to_velocity bpm_value min_bpm max_bpm_val min_velocity max_velocity = Ok velocity ->
  LiveLSL.detection_pass thr st peak_times
  = Ok ({| current_note := Some target; last_bpm := Some bpm_value |},
        [NoteOn target velocity; NoteOff target 0]).
Proof.
  intros smoothed_bpm bpm_value Hreach Hlast Hlen Hmed Hmin Hmax Hnote Hvel.
  assert (Hcur : current_note st = None).
  { apply (reachable_set_together _ _ (lsl_pass_outcome thr) st Hreach).
    exact Hlast. }
  unfold LiveLSL.detection_pass.
  destruct (Nat.leb_spec 2 (length peak_times)) as [_ | Hlt]; [| lia].
  rewrite Hmed. simpl. fold smoothed_bpm. rewrite Hmin, Hmax. simpl.
  apply gated_update_first; assumption.
Qed.

(** ** What reaches the MIDI port

    The scripts build every message with [mido.Message], which raises on a
    data byte outside 0..127.  The lemmas below show that it never does: the
    mappers stay inside their output ranges for all arguments, the glide
    stays between the notes it connects, and so every message of every pass
    is a valid one.  The passes above can therefore leave the construction of
    messages out of their exceptions. *)

Section MidiRange.

Lemma note_in_range_any (bpm min_bpm max_bpm : num) (mn mx n : Z) :
  mn <= mx ->
  bpm_to_note_quantized bpm min_bpm max_bpm mn mx = Ok n ->
  mn <= n <= mx.
Proof.
  intros Hm. unfold bpm_to_note_quantized.
  destruct (normalize bpm min_bpm max_bpm) as [t | | |] eqn:En; simpl.
  - intros H. apply Ok_inj in H. subst n.
    destruct (normalize_unit _ _ _ _ En) as [H0 H1].
    destruct (scale_bounds t mn mx Hm H0 H1) as [Ha Hb].
    apply round_half_even_between; assumption.
  - unfold Num.signed_inf. destruct (_ ?= _)%Q; discriminate.
  - unfold Num.signed_inf. destruct (_ ?= _)%Q; discriminate.
  - discriminate.
Qed.

Lemma velocity_in_range_any (bpm min_bpm max_bpm : num) (a b v : Z) :
  0 <= a <= b ->
  bpm_to_velocity bpm min_bpm max_bpm a b = Ok v ->
  a <= v <= b.
Proof.
  intros Hab. unfold bpm_to_velocity.
  destruct (normalize bpm min_bpm max_bpm) as [t | | |] eqn:En; simpl.
  - destruct (normalize_unit _ _ _ _ En) as [H0 H1].
    rewrite (proj2 (Qle_bool_iff _ _) H0). unfold floor_mul_sqrt.
    destruct (Z.leb_spec 0 (b - a)) as [Hk | Hk]; [| lia].
    pose proof (sqrt_floor_bounds (b - a) t Hk H0 H1) as Hs.
    destruct (Z.leb_spec 0 (a + Z.sqrt (Qfloor (inject_Z ((b - a) * (b - a)) * t))))
      as [_ | Hneg]; [| lia].
    intros H. apply Ok_inj in H. lia.
  - destruct (b - a =? 0); discriminate.
  - discriminate.
  - discriminate.
Qed.

Lemma glide_between (target_note current_note : Z) :
  Z.min current_note target_note
  <= glide note_glide_speed target_note current_note
  <= Z.max current_note target_note.
Proof.
  destruct (Z.eq_dec current_note target_note) as [-> | Hne].
  - rewrite glide_at_target. lia.
  - apply (glide_stays_between target_note current_note Hne).
Qed.

Lemma gated_update_in_range
  (thr : num) (st st' : mapping_state) (bpm_value min_bpm max_bpm : num)
  (events : list event) :
  note_in_range st ->
  gated_update thr st bpm_value min_bpm max_bpm = Ok (st', events) ->
  note_in_range st' /\ Forall (fun m => midi_ok m = true) events.
Proof.
  intros Hst. unfold gated_update.
  destruct (gate_opens thr (last_bpm st) bpm_value).
  - destruct (bpm_to_note_quantized _ _ _ _ _) as [target |] eqn:Hn; [| discriminate].
    destruct (bpm_to_velocity _ _ _ _ _) as [velocity |] eqn:Hv; [| discriminate].
    simpl. intros H. apply Ok_inj in H. injection H as <- <-.
    apply note_in_range_any in Hn; [| vm_compute; discriminate].
    apply velocity_in_range_any in Hv; [| vm_compute; split; discriminate].
    unfold min_note, max_note in *. unfold min_velocity, max_velocity in Hv.
    assert (Hplay : 48 <= glide note_glide_speed target
                            match current_note st with
                            | Some c => c
                            | None => target
                            end <= 84).
    { destruct (current_note st) as [c |] eqn:Hc.
      - specialize (Hst c Hc). unfold min_note, max_note in Hst.
        pose proof (glide_between target c). lia.
      - rewrite glide_at_target. lia. }
    split.
    + intros n Hsome. simpl in Hsome. injection Hsome as <-. exact Hplay.
    + repeat constructor; unfold midi_ok, data_byte;
        rewrite !andb_true_iff, !Z.leb_le; lia.
  - intros H. apply Ok_inj in H. injection H as <- <-.
    split; [exact Hst | constructor].
Qed.

Lemma serial_pass_in_range (thr : num) (st : mapping_state) (peaks : list Z)
  (st' : mapping_state) (events : list event) :
  note_in_range st ->
  LiveSerial.detection_pass thr st peaks = Ok (st', events) ->
  note_in_range st' /\ Forall (fun m => midi_ok m = true) events.
Proof.
  intros Hst. unfold LiveSerial.detection_pass.
  destruct (1 <? length peaks)%nat.
  - destruct (LiveSerial.out_of_band _).
    + intros H. apply Ok_inj in H. injection H as <- <-.
      split; [exact Hst | constructor].
    + destruct (LiveSerial.bpm_range _) as [range |]; [| discriminate]. simpl.
      apply gated_update_in_range. exact Hst.
  - intros H. apply Ok_inj in H. injection H as <- <-.
    split; [exact Hst | constructor].
Qed.

Lemma lsl_pass_in_range (thr : num) (st : mapping_state) (peak_times : list num)
  (st' : mapping_state) (events : list event) :
  note_in_range st ->
  LiveLSL.detection_pass thr st peak_times = Ok (st', events) ->
  note_in_range st' /\ Forall (fun m => midi_ok m = true) events.
Proof.
  intros Hst. unfold LiveLSL.detection_pass.
  destruct (2 <=? length peak_times)%nat.
  - destruct (moving_median _ _) as [smoothed_rr |]; [| discriminate]. simpl.
    destruct (np_min _) as [lo |]; [| discriminate]. simpl.
    destruct (np_max _) as [hi |]; [| discriminate]. simpl.
    apply gated_update_in_range. exact Hst.
  - intros H. apply Ok_inj in H. injection H as <- <-.
    split; [exact Hst | constructor].
Qed.

Variable I : Type.
Variable pass : mapping_state -> I -> result (mapping_state * list event).

Hypothesis pass_in_range :
  forall st input st' events,
    note_in_range st ->
    pass st input = Ok (st', events) ->
    note_in_range st' /\ Forall (fun m => midi_ok m = true) events.

(** Every state of a run holds a note of 48..84 or none, and every message
    of a pass started in such a state is accepted by the port. *)
Lemma reachable_note_in_range (st : mapping_state) :
  reachable pass st -> note_in_range st.
Proof.
  induction 1 as [| st input st' events _ IH Hrun].
  - intros n Hn. discriminate.
  - exact (proj1 (pass_in_range _ _ _ _ IH Hrun)).
Qed.

Lemma reachable_messages_valid (st st' : mapping_state) (input : I)
  (events : list event) :
  reachable pass st ->
  pass st input = Ok (st', events) ->
  Forall (fun m => midi_ok m = true) events.
Proof.
  intros Hreach Hrun.
  exact (proj2 (pass_in_range _ _ _ _ (reachable_note_in_range st Hreach) Hrun)).
Qed.

End MidiRange.

Corollary serial_messages_valid
  (thr : num) (st st' : mapping_state) (peaks : list Z) (events : list event) :
  reachable (LiveSerial.detection_pass thr) st ->
  LiveSerial.detection_pass thr st peaks = Ok (st', events) ->
  Forall (fun m => midi_ok m = true) events.
Proof.
  apply (reachable_messages_valid _ _ (serial_pass_in_range thr)).
Qed.

Corollary lsl_messages_valid
  (thr : num) (st st' : mapping_state) (peak_times : list num) (events : list event) :
  reachable (LiveLSL.detection_pass thr) st ->
  LiveLSL.detection_pass thr st peak_times = Ok (st', events) ->
  Forall (fun m => midi_ok m = true) events.
Proof.
  apply (reachable_messages_valid _ _ (lsl_pass_in_range thr)).
Qed.

(** The controller values of a ramp between two values of 0..127 are valid
    too. *)
Lemma cc_glide_messages_valid (glide_speed : Q) (target_cc : Z) (fuel : nat) :
  0 <= target_cc <= 127 ->
  forall cc_value final sent,
    0 <= cc_value <= 127 ->
    Prerecorded.cc_glide fuel glide_speed target_cc cc_value = Some (final, sent) ->
    Forall (fun m => midi_ok m = true) sent.
Proof.
  intros Ht. induction fuel as [| fuel IH]; intros cc_value final sent Hc; simpl.
  - destruct (cc_value =? target_cc); [| discriminate].
    intros H. injection H as _ <-. constructor.
  - destruct (Z.eqb_spec cc_value target_cc) as [_ | Hne].
    + intros H. injection H as _ <-. constructor.
    + destruct (cc_step_progress glide_speed target_cc cc_value Hne) as [Hin _].
      cbv zeta in Hin.
      destruct (Prerecorded.cc_glide fuel glide_speed target_cc
                  (Prerecorded.cc_step glide_speed target_cc cc_value))
        as [[final' sent'] |] eqn:Hrun; [| discriminate].
      intros H. injection H as _ <-. constructor.
      * unfold midi_ok, data_byte. rewrite !andb_true_iff, !Z.leb_le. lia.
      * apply (IH (Prerecorded.cc_step glide_speed target_cc cc_value) final' sent');
          [lia | exact Hrun].
Qed.

(** ** Binary64 replay

    The integer-valued steps computed on binary64 agree with the exact model
    on the whole MIDI range, and the two concrete departures found above are
    the same on binary64. *)

Section Binary64.

Lemma Zrange_In (lo : Z) (n : nat) (d : Z) :
  lo <= d < lo + Z.of_nat n -> In d (B64.Zrange lo n).
Proof.
  intros Hd. unfold B64.Zrange. apply in_map_iff.
  exists (Z.to_nat (d - lo)). split; [lia |].
  apply in_seq. lia.
Qed.

Lemma b64_glide_step_table :
  forallb (fun d => B64.result_eqb (B64.glide_step d) (Ok (glide_step note_glide_speed d)))
    (B64.Zrange (-127) 255) = true.
Proof. vm_compute. reflexivity. Qed.

Lemma b64_result_is (r : result Z) (z : Z) :
  B64.result_eqb r (Ok z) = true -> r = Ok z.
Proof.
  destruct r as [y |]; simpl; [| discriminate].
  intros H. apply Z.eqb_eq in H. congruence.
Qed.

(** On binary64, [int(round(note_distance * 0.2))] and the forced unit
    step give the model's glide step for every distance between two MIDI
    notes. *)
Lemma b64_glide_step_agrees (note_distance : Z) :
  -127 <= note_distance <= 127 ->
  B64.glide_step note_distance = Ok (glide_step note_glide_speed note_distance).
Proof.
  intros Hd. apply b64_result_is.
  pose proof b64_glide_step_table as Htable.
  rewrite forallb_forall in Htable. apply Htable.
  apply Zrange_In. lia.
Qed.

Lemma b64_cc_increment_table :
  forallb (fun d => B64.result_eqb (B64.cc_increment d 0)
                      (Ok (Prerecorded.cc_increment Prerecorded.glide_speed d 0)))
    (B64.Zrange 0 128) = true.
Proof. vm_compute. reflexivity. Qed.

(** On binary64, [max(1, int(abs(target_cc - cc_value) * 0.1))] is the
    model's increment for all controller values of 0..127. *)
Lemma b64_cc_increment_agrees (target_cc cc_value : Z) :
  0 <= target_cc <= 127 -> 0 <= cc_value <= 127 ->
  B64.cc_increment target_cc cc_value
  = Ok (Prerecorded.cc_increment Prerecorded.glide_speed target_cc cc_value).
Proof.
  intros Ht Hc.
  pose proof b64_cc_increment_table as Htable.
  rewrite forallb_forall in Htable.
  assert (Hin : In (Z.abs (target_cc - cc_value)) (B64.Zrange 0 128))
    by (apply Zrange_In; lia).
  apply Htable, b64_result_is in Hin.
  unfold B64.cc_increment, Prerecorded.cc_increment in *.
  rewrite Z.sub_0_r, Z.abs_idemp in Hin. exact Hin.
Qed.

(** The degenerate range on binary64: [0.0 / 0.0], then [ValueError]. *)
Lemma b64_degenerate_range_raises :
  B64.bpm_to_note_quantized 60 60 60 min_note max_note = Raise ValueError
  /\ B64.bpm_to_velocity 60 60 60 min_velocity max_velocity = Raise ValueError
  /\ B64.bpm_to_cc113 60 60 60 = Raise ValueError.
Proof. vm_compute. repeat split. Qed.

(** The velocity at bpm 159 of 60..160 on binary64: 69 as in the model. *)
Lemma b64_velocity_below_linear :
  B64.bpm_to_velocity 159 60 160 min_velocity max_velocity = Ok 69.
Proof. vm_compute. reflexivity. Qed.

(** On binary64 the three mappers return what the exact model returns (the
    same integer, or an exception on both sides) for every integer bpm
    of 20..220 and the ranges [min_bpm..max_bpm] with [min_bpm] 40 or 60 and
    [max_bpm] 60, 63, ..., 180, the degenerate 60..60 among them. *)
Lemma b64_mappers_agree_on_grid :
  forallb
    (fun min_bpm =>
       forallb
         (fun i =>
            forallb (B64.mappers_agree min_bpm (60 + 3 * i)) (B64.Zrange 20 201))
         (B64.Zrange 0 41))
    [40; 60] = true.
Proof. vm_compute. reflexivity. Qed.

Lemma b64_mappers_agree (min_bpm i bpm : Z) :
  min_bpm = 40 \/ min_bpm = 60 -> 0 <= i <= 40 -> 20 <= bpm <= 220 ->
  B64.mappers_agree min_bpm (60 + 3 * i) bpm = true.
Proof.
  intros Hmin Hi Hb.
  pose proof b64_mappers_agree_on_grid as Hgrid.
  rewrite forallb_forall in Hgrid.
  assert (Hin : In min_bpm [40; 60]) by (destruct Hmin as [-> | ->]; simpl; auto).
  apply Hgrid in Hin. rewrite forallb_forall in Hin.
  assert (Hini : In i (B64.Zrange 0 41)) by (apply Zrange_In; lia).
  apply Hin in Hini. rewrite forallb_forall in Hini.
  apply Hini. apply Zrange_In. lia.
Qed.

End Binary64.

(** ** More on the discrete glide *)

Section GlideSteps.

(** The rounded fifth of an integer is the only integer within one half of
    it: a fifth of an integer is never half-way between two integers. *)
Lemma round_fifth_unique (d r : Z) :
  10 * r - 5 <= 2 * d <= 10 * r + 5 ->
  Num.round_half_even (inject_Z d * note_glide_speed) = r.
Proof.
  intros Hr. pose proof (round_fifth_bounds d) as H. cbv zeta in H. lia.
Qed.

Lemma round_fifth_opp (d : Z) :
  Num.round_half_even (inject_Z (- d) * note_glide_speed)
  = - Num.round_half_even (inject_Z d * note_glide_speed).
Proof.
  apply round_fifth_unique.
  pose proof (round_fifth_bounds d) as H. cbv zeta in H. lia.
Qed.

(** X1.  The glide step is an odd function of the note distance: gliding
    down over a distance moves by exactly as much as gliding up over it.
    [round] to even and the forced unit step are both symmetric. *)
Theorem glide_step_odd (note_distance : Z) :
  glide_step note_glide_speed (- note_distance)
  = - glide_step note_glide_speed note_distance.
Proof.
  unfold glide_step. rewrite round_fifth_opp.
  destruct (Z.eqb_spec (Num.round_half_even (inject_Z note_distance * note_glide_speed)) 0)
    as [H0 | H0];
    destruct (Z.eqb_spec (- Num.round_half_even (inject_Z note_distance * note_glide_speed)) 0);
    destruct (Z.eqb_spec note_distance 0); destruct (Z.eqb_spec (- note_distance) 0);
    simpl; try lia.
Qed.

(** X2.  With [note_glide_speed = 0.2] the glide moves by exactly one
    semitone, toward the target, when the target is 1 to 7 semitones away
    ([round] gives 0 and the step is forced up to distance 2, and gives 1 from
    3 to 7), and by at least two semitones when it is 8 or more away. *)
Theorem glide_unit_zone (note_distance : Z) :
  note_distance <> 0 ->
  (Z.abs note_distance <= 7 ->
   glide_step note_glide_speed note_distance = Z.sgn note_distance)
  /\ (8 <= Z.abs note_distance ->
      2 <= Z.abs (glide_step note_glide_speed note_distance)).
Proof.
  intros Hne. unfold glide_step.
  pose proof (round_fifth_bounds note_distance) as H. cbv zeta in H.
  destruct (Z.eqb_spec (Num.round_half_even (inject_Z note_distance * note_glide_speed)) 0);
    destruct (Z.eqb_spec note_distance 0); simpl; split; intros; try lia.
Qed.

Lemma glide_unit_zone_witness :
  5 <> 0 /\ glide_step note_glide_speed 5 = Z.sgn 5.
Proof.
  assert (Hne : 5 <> 0) by discriminate.
  split; [exact Hne |].
  apply (proj1 (glide_unit_zone 5 Hne)). vm_compute. discriminate.
Defined.

(** X3.  One glide step toward a different target covers a fifth of
    the distance up to rounding: what is left is at most four fifths of the
    distance plus one half, [10 * |target - next| <= 8 * |target - current| + 5]. *)
Theorem glide_covers_a_fifth (target_note current_note : Z) :
  current_note <> target_note ->
  10 * Z.abs (target_note - glide note_glide_speed target_note current_note)
  <= 8 * Z.abs (target_note - current_note) + 5.
Proof.
  intros Hne. unfold glide, glide_step.
  pose proof (round_fifth_bounds (target_note - current_note)) as H. cbv zeta in H.
  destruct (Z.eqb_spec
              (Num.round_half_even (inject_Z (target_note - current_note) * note_glide_speed)) 0);
    destruct (Z.eqb_spec (target_note - current_note) 0); cbn [andb negb]; lia.
Qed.

Lemma glide_covers_a_fifth_witness :
  48 <> 84
  /\ 10 * Z.abs (84 - glide note_glide_speed 84 48) <= 8 * Z.abs (84 - 48) + 5.
Proof.
  assert (Hne : 48 <> 84) by discriminate.
  split; [exact Hne |]. exact (glide_covers_a_fifth 84 48 Hne).
Defined.

End GlideSteps.

(** ** More on the mappers *)

(** Case analysis on the rational comparisons of the goal and of the
    hypotheses. *)
Ltac qsplit :=
  repeat match goal with
    | H : context [Qle_bool ?a ?b] |- _ =>
        let E := fresh "E" in
        destruct (Qle_bool a b) eqn:E;
        [apply Qle_bool_iff in E | apply Qle_bool_false in E];
        simpl in H
    | |- context [Qle_bool ?a ?b] =>
        let E := fresh "E" in
        destruct (Qle_bool a b) eqn:E;
        [apply Qle_bool_iff in E | apply Qle_bool_false in E];
        simpl
    end.

Section MapperEnds.

Local Open Scope Q_scope.

Lemma clip_below (lo hi : Q) (bpm : num) :
  lo <= hi -> Num.leb bpm (Fin lo) = true ->
  exists c, Num.clip bpm (Fin lo) (Fin hi) = Fin c /\ c == lo.
Proof.
  intros Hr Hb. unfold Num.clip, Num.maximum, Num.minimum.
  destruct bpm as [b | | |]; simpl in *; try discriminate;
    qsplit; try discriminate; eexists; (split; [reflexivity |]); lra.
Qed.

Lemma clip_above (lo hi : Q) (bpm : num) :
  lo <= hi -> Num.leb (Fin hi) bpm = true ->
  exists c, Num.clip bpm (Fin lo) (Fin hi) = Fin c /\ c == hi.
Proof.
  intros Hr Hb. unfold Num.clip, Num.maximum, Num.minimum.
  destruct bpm as [b | | |]; simpl in *; try discriminate;
    qsplit; try discriminate; eexists; (split; [reflexivity |]); lra.
Qed.

(** The integer part added to [min_velocity] at both ends of the curve. *)
Lemma sqrt_floor_at_0 (k : Z) (t : Q) :
  t == 0 -> Z.sqrt (Qfloor (inject_Z (k * k) * t)) = 0%Z.
Proof.
  intros Ht.
  assert (H : inject_Z (k * k) * t == inject_Z 0) by (rewrite Ht; ring).
  rewrite (Qfloor_comp _ _ H), Qfloor_Z. reflexivity.
Qed.

Lemma sqrt_floor_at_1 (k : Z) (t : Q) :
  (0 <= k)%Z -> t == 1 -> Z.sqrt (Qfloor (inject_Z (k * k) * t)) = k.
Proof.
  intros Hk Ht.
  assert (H : inject_Z (k * k) * t == inject_Z (k * k)) by (rewrite Ht; ring).
  rewrite (Qfloor_comp _ _ H), Qfloor_Z. apply Z.sqrt_square. exact Hk.
Qed.

End MapperEnds.

(** X4.  For [min_bpm < max_bpm] and a velocity range
    [0 <= min_velocity <= max_velocity], the three mappers saturate: every bpm
    at or below [min_bpm] ([-inf] included) gives the bottom of each output
    range, and every bpm at or above [max_bpm] ([inf] included) gives the
    top. *)
Theorem mappers_saturate
  (min_bpm max_bpm : Q) (bpm : num) (mn mx a b : Z) :
  (min_bpm < max_bpm)%Q -> 0 <= a <= b ->
  (Num.leb bpm (Fin min_bpm) = true ->
   bpm_to_note_quantized bpm (Fin min_bpm) (Fin max_bpm) mn mx = Ok mn
   /\ bpm_to_velocity bpm (Fin min_bpm) (Fin max_bpm) a b = Ok a
   /\ bpm_to_cc113 (Fin min_bpm) (Fin max_bpm) bpm = Ok min_cc113)
  /\ (Num.leb (Fin max_bpm) bpm = true ->
      bpm_to_note_quantized bpm (Fin min_bpm) (Fin max_bpm) mn mx = Ok mx
      /\ bpm_to_velocity bpm (Fin min_bpm) (Fin max_bpm) a b = Ok b
      /\ bpm_to_cc113 (Fin min_bpm) (Fin max_bpm) bpm = Ok max_cc113).
Proof.
  intros Hr Hab.
  assert (Hr' : (min_bpm <= max_bpm)%Q) by lra.
  split; intros Hb.
  - destruct (clip_below _ _ _ Hr' Hb) as (c & Hc & Hcq).
    pose proof (fraction_low _ _ _ Hr Hcq) as Hf.
    assert (Hlo : (min_bpm <= c)%Q) by lra.
    assert (Hhi : (c <= max_bpm)%Q) by lra.
    change (bpm_to_cc113 (Fin min_bpm) (Fin max_bpm) bpm)
      with (bpm_to_note_quantized bpm (Fin min_bpm) (Fin max_bpm) min_cc113 max_cc113).
    rewrite !(note_of_clip _ _ _ _ _ _ Hr Hc).
    rewrite (velocity_of_clip _ _ _ _ _ _ Hr Hab Hc Hlo Hhi).
    rewrite (sqrt_floor_at_0 _ _ Hf).
    repeat split; f_equal; try lia; apply round_half_even_Z; rewrite Hf; ring.
  - destruct (clip_above _ _ _ Hr' Hb) as (c & Hc & Hcq).
    pose proof (fraction_high _ _ _ Hr Hcq) as Hf.
    assert (Hlo : (min_bpm <= c)%Q) by lra.
    assert (Hhi : (c <= max_bpm)%Q) by lra.
    change (bpm_to_cc113 (Fin min_bpm) (Fin max_bpm) bpm)
      with (bpm_to_note_quantized bpm (Fin min_bpm) (Fin max_bpm) min_cc113 max_cc113).
    rewrite !(note_of_clip _ _ _ _ _ _ Hr Hc).
    rewrite (velocity_of_clip _ _ _ _ _ _ Hr Hab Hc Hlo Hhi).
    assert (Hk : 0 <= b - a) by lia.
    rewrite (sqrt_floor_at_1 _ _ Hk Hf).
    repeat split; f_equal; try lia; apply round_half_even_Z;
      rewrite Hf, inject_Z_sub; ring.
Qed.

Lemma mappers_saturate_witness :
  (60 < 160)%Q /\ 0 <= min_velocity <= max_velocity
  /\ Num.leb (Fin 50) (Fin 60) = true
  /\ bpm_to_note_quantized (Fin 50) (Fin 60) (Fin 160) min_note max_note = Ok min_note
  /\ bpm_to_velocity (Fin 50) (Fin 60) (Fin 160) min_velocity max_velocity
     = Ok min_velocity
  /\ bpm_to_cc113 (Fin 60) (Fin 160) (Fin 50) = Ok min_cc113.
Proof.
  assert (Hr : (60 < 160)%Q) by reflexivity.
  assert (Hv : 0 <= min_velocity <= max_velocity) by (vm_compute; split; discriminate).
  assert (Hb : Num.leb (Fin 50) (Fin 60) = true) by reflexivity.
  split; [exact Hr |]. split; [exact Hv |]. split; [exact Hb |].
  exact (proj1 (mappers_saturate 60 160 (Fin 50) min_note max_note
                  min_velocity max_velocity Hr Hv) Hb).
Defined.

Section OddRanges.

Local Open Scope Q_scope.

Lemma div_zero_zero (x d : Q) :
  x == 0 -> d == 0 -> Num.div (Fin x) (Fin d) = NaN.
Proof.
  intros Hx Hd. simpl. rewrite (proj2 (Qeq_bool_iff _ _) Hd).
  unfold Num.signed_inf. rewrite Hx. reflexivity.
Qed.

(** A range whose bounds are equal as numbers normalises to [nan]. *)
Lemma normalize_degenerate_eq (bpm : num) (lo hi : Q) :
  lo == hi -> normalize bpm (Fin lo) (Fin hi) = NaN.
Proof.
  intros Heq. unfold normalize, Num.clip, Num.maximum, Num.minimum.
  destruct bpm as [b | | |]; simpl; try reflexivity;
    qsplit; try reflexivity;
    match goal with
    | |- (if Qeq_bool ?d 0 then Num.signed_inf ?x else _) = NaN =>
        apply (div_zero_zero x d); lra
    end.
Qed.

Lemma normalize_reversed (bpm : num) (lo hi : Q) :
  hi < lo -> bpm <> NaN ->
  exists t, normalize bpm (Fin lo) (Fin hi) = Fin t /\ t == 1.
Proof.
  intros Hr Hn. unfold normalize, Num.clip, Num.maximum, Num.minimum.
  destruct bpm as [b | | |]; simpl; try congruence;
    qsplit; try lra;
    (rewrite Qeq_bool_false by lra);
    eexists; (split; [reflexivity | field; lra]).
Qed.

(** The top of the output range at a normalised value of 1. *)
Lemma note_of_unit (t : Q) (mn mx : Z) :
  t == 1 ->
  Num.int_round (Num.add (Num.of_Z mn) (Num.mul (Fin t) (Num.of_Z (mx - mn)))) = Ok mx.
Proof.
  intros H1. unfold Num.of_Z. cbn [Num.mul Num.add Num.int_round].
  f_equal. apply round_half_even_Z. rewrite H1, inject_Z_sub. ring.
Qed.

Lemma velocity_of_unit (t : Q) (a b : Z) :
  t == 1 -> (a <= b)%Z -> int_affine_sqrt a (b - a) (Fin t) = Ok b.
Proof.
  intros H1 Hab.
  assert (Hk : (0 <= b - a)%Z) by lia.
  assert (H0 : 0 <= t) by lra.
  unfold int_affine_sqrt, floor_mul_sqrt, ceil_mul_sqrt.
  rewrite (proj2 (Qle_bool_iff _ _) H0).
  destruct (Z.leb_spec 0 (b - a)) as [_ | Hneg]; [| lia].
  assert (H : inject_Z ((b - a) * (b - a)) * t == inject_Z ((b - a) * (b - a)))
    by (rewrite H1; ring).
  rewrite (Qfloor_comp _ _ H), (Qceiling_comp _ _ H), Qfloor_Z, Qceiling_Z.
  rewrite Z.sqrt_square, Z.sqrt_up_square by exact Hk.
  f_equal. destruct (0 <=? a + (b - a))%Z; lia.
Qed.

End OddRanges.

(** X5.  When the range is reversed, [max_bpm < min_bpm],
    [np.clip] returns [max_bpm] for every bpm that is a number, the
    normalised value is 1, and the three mappers return the top of their
    output ranges whatever the bpm. *)
Theorem reversed_range_plays_the_top
  (min_bpm max_bpm : Q) (bpm : num) (mn mx a b : Z) :
  (max_bpm < min_bpm)%Q -> bpm <> NaN -> a <= b ->
  bpm_to_note_quantized bpm (Fin min_bpm) (Fin max_bpm) mn mx = Ok mx
  /\ bpm_to_velocity bpm (Fin min_bpm) (Fin max_bpm) a b = Ok b
  /\ bpm_to_cc113 (Fin min_bpm) (Fin max_bpm) bpm = Ok max_cc113.
Proof.
  intros Hr Hn Hab.
  destruct (normalize_reversed bpm min_bpm max_bpm Hr Hn) as (t & Ht & H1).
  unfold bpm_to_note_quantized, bpm_to_velocity, bpm_to_cc113. rewrite Ht.
  split; [| split].
  - apply note_of_unit. exact H1.
  - apply velocity_of_unit; assumption.
  - apply note_of_unit. exact H1.
Qed.

Lemma reversed_range_plays_the_top_witness :
  (60 < 160)%Q /\ Fin 100 <> NaN /\ min_velocity <= max_velocity
  /\ bpm_to_note_quantized (Fin 100) (Fin 160) (Fin 60) min_note max_note = Ok max_note.
Proof.
  assert (Hr : (60 < 160)%Q) by reflexivity.
  assert (Hn : Fin 100 <> NaN) by discriminate.
  assert (Hv : min_velocity <= max_velocity) by (vm_compute; discriminate).
  split; [exact Hr |]. split; [exact Hn |]. split; [exact Hv |].
  exact (proj1 (reversed_range_plays_the_top 160 60 (Fin 100) min_note max_note
                  min_velocity max_velocity Hr Hn Hv)).
Defined.



(** ** More on the median filters *)

Section Medians.

Lemma insert_sorted_length (x : num) (l : list num) :
  length (insert_sorted x l) = S (length l).
Proof.
  induction l as [| y t IH]; simpl; [reflexivity |].
  destruct (Num.leb x y); simpl; [reflexivity | rewrite IH; reflexivity].
Qed.

Lemma sort_length (l : list num) : length (sort l) = length l.
Proof.
  unfold sort. induction l as [| x t IH]; simpl; [reflexivity |].
  rewrite insert_sorted_length, IH. reflexivity.
Qed.

Lemma insert_sorted_in (x y : num) (l : list num) :
  In y (insert_sorted x l) -> y = x \/ In y l.
Proof.
  induction l as [| z t IH]; simpl.
  - intros [<- | []]. left. reflexivity.
  - destruct (Num.leb x z); simpl.
    + intros [<- | [<- | H]]; auto.
    + intros [<- | H]; auto. destruct (IH H); auto.
Qed.

Lemma sort_in (y : num) (l : list num) : In y (sort l) -> In y l.
Proof.
  unfold sort. induction l as [| x t IH]; simpl; [tauto |].
  intros H. apply insert_sorted_in in H. destruct H as [<- | H]; auto.
Qed.

(** The median of an odd number of values is one of them. *)
Lemma np_median_in (a : list num) :
  Nat.odd (length a) = true -> In (np_median a) a.
Proof.
  intros Hodd. unfold np_median.
  destruct (existsb Num.is_nan a) eqn:Hnan.
  - apply existsb_exists in Hnan. destruct Hnan as (x & Hx & Hn).
    destruct x; try discriminate. exact Hx.
  - destruct (length a) as [| n] eqn:Hlen; [discriminate |].
    rewrite Hodd. apply sort_in, nth_In. rewrite sort_length, Hlen.
    apply Nat.div_lt; lia.
Qed.

Lemma in_firstn (x : num) (k : nat) (l : list num) : In x (firstn k l) -> In x l.
Proof.
  intros H. rewrite <- (firstn_skipn k l). apply in_or_app. left. exact H.
Qed.

Lemma in_skipn (x : num) (k : nat) (l : list num) : In x (skipn k l) -> In x l.
Proof.
  intros H. rewrite <- (firstn_skipn k l). apply in_or_app. right. exact H.
Qed.

(** The medians over the windows of odd size of a long enough array are
    elements of the array. *)
Lemma window_medians_in (w : nat) (padded : list num) (n : nat) (y : num) :
  Nat.odd w = true -> (n + w <= S (length padded))%nat ->
  In y (map np_median (windows w padded n)) -> In y padded.
Proof.
  intros Hw Hlen Hy. unfold windows in Hy. rewrite map_map in Hy.
  apply in_map_iff in Hy. destruct Hy as (i & <- & Hi).
  apply in_seq in Hi.
  apply (in_skipn _ i), (in_firstn _ w), np_median_in.
  rewrite length_firstn, length_skipn.
  replace (Nat.min w (length padded - i)) with w by lia. exact Hw.
Qed.

Lemma last_in (d : num) (l : list num) : l <> [] -> In (last l d) l.
Proof.
  induction l as [| x t IH]; [contradiction |].
  intros _. destruct t as [| y t']; [left; reflexivity |].
  right. apply IH. discriminate.
Qed.

End Medians.

Lemma moving_median3_in (data : list num) :
  data <> [] ->
  exists out,
    moving_median data 3 = Ok out
    /\ length out = length data
    /\ forall y, In y out -> In y data.
Proof.
  intros Hne. destruct data as [| x t]; [contradiction |].
  unfold moving_median, np_pad_edge.
  change (3 =? 0)%nat with false. cbv iota beta. unfold bind.
  eexists. split; [reflexivity |]. split.
  - rewrite length_map, windows_length. reflexivity.
  - intros y Hy.
    apply window_medians_in in Hy; [| reflexivity |].
    + change (3 / 2)%nat with 1%nat in Hy. change (3 - 1 - 1)%nat with 1%nat in Hy.
      apply in_app_or in Hy. destruct Hy as [Hy | Hy].
      * destruct Hy as [<- | []]. left. reflexivity.
      * apply in_app_or in Hy. destruct Hy as [Hy | Hy]; [exact Hy |].
        destruct Hy as [<- | []]. apply last_in. discriminate.
    + rewrite !length_app, !repeat_length. simpl. lia.
Qed.

(** X7.  [moving_median] with a window of 3 never invents a value:
    on a non-empty array it returns, and every smoothed value is one of the
    values given; so whatever holds of every value given holds of every
    smoothed value. *)
Theorem moving_median_keeps_values (data : list num) (P : num -> Prop) :
  data <> [] ->
  exists out,
    moving_median data 3 = Ok out
    /\ (forall y, In y out -> In y data)
    /\ (Forall P data -> Forall P out).
Proof.
  intros Hne. destruct (moving_median3_in data Hne) as (out & Hrun & _ & Hin).
  exists out. split; [exact Hrun |]. split; [exact Hin |].
  intros HP. rewrite Forall_forall in *. intros y Hy. apply HP, Hin, Hy.
Qed.

Lemma moving_median_keeps_values_witness :
  [Fin 1; Fin 5; Fin 2] <> []
  /\ exists out,
       moving_median [Fin 1; Fin 5; Fin 2] 3 = Ok out
       /\ Forall (fun y => is_finite y = true) out.
Proof.
  assert (Hne : [Fin 1; Fin 5; Fin 2] <> []) by discriminate.
  split; [exact Hne |].
  destruct (moving_median_keeps_values [Fin 1; Fin 5; Fin 2]
              (fun y => is_finite y = true) Hne) as (out & Hrun & _ & Hall).
  exists out. split; [exact Hrun |].
  apply Hall. repeat constructor.
Defined.

Section MedianIndices.

Lemma firstn3_skipn (d : num) (i : nat) :
  forall l, (i + 3 <= length l)%nat ->
  firstn 3 (skipn i l) = [nth i l d; nth (S i) l d; nth (S (S i)) l d].
Proof.
  induction i as [| i IH]; intros l Hl.
  - destruct l as [| a [| b [| c t]]]; simpl in Hl; try lia. reflexivity.
  - destruct l as [| a t]; simpl in Hl; [lia |].
    simpl skipn. rewrite IH by lia. reflexivity.
Qed.

Lemma nth_pred_length (d d' : num) (l : list num) :
  l <> [] -> nth (length l - 1) l d = last l d'.
Proof.
  induction l as [| x t IH]; [contradiction |].
  intros _. destruct t as [| y t'].
  - reflexivity.
  - change (last (x :: y :: t') d') with (last (y :: t') d').
    rewrite <- IH by discriminate.
    simpl length. replace (S (S (length t')) - 1)%nat with (S (length t')) by lia.
    simpl. rewrite Nat.sub_0_r. reflexivity.
Qed.

(** The smoothed value at one index. *)
Lemma moving_median_nth (data out : list num) (i : nat) :
  moving_median data 3 = Ok out -> (i < length data)%nat ->
  nth i out NaN
  = np_median [nth (i - 1) data NaN;
               nth i data NaN;
               nth (Nat.min (i + 1) (length data - 1)) data NaN].
Proof.
  intros Hrun Hi. destruct data as [| x t]; [simpl in Hi; lia |].
  unfold moving_median, np_pad_edge in Hrun.
  change (3 =? 0)%nat with false in Hrun. cbv iota beta in Hrun. unfold bind in Hrun.
  apply Ok_inj in Hrun. subst out.
  change (3 / 2)%nat with 1%nat. change (3 - 1 - 1)%nat with 1%nat.
  set (data := x :: t) in *.
  set (padded := repeat x 1 ++ data ++ repeat (last data x) 1).
  change NaN with (np_median []) at 1. rewrite map_nth.
  unfold windows.
  rewrite (nth_indep _ [] (firstn 3 (skipn 0 padded)))
    by (rewrite length_map, length_seq; exact Hi).
  rewrite (map_nth (fun i => firstn 3 (skipn i padded))), seq_nth by exact Hi.
  rewrite Nat.add_0_l.
  assert (Hlen : length padded = S (S (length data))).
  { unfold padded. rewrite !length_app, !repeat_length. lia. }
  rewrite (firstn3_skipn NaN) by lia.
  assert (Hpad : forall j, nth (S j) padded NaN = nth j (data ++ [last data x]) NaN)
    by reflexivity.
  f_equal. f_equal; [| f_equal; [| f_equal]].
  - destruct i as [| j]; [reflexivity |].
    rewrite Hpad, app_nth1 by lia. f_equal. lia.
  - rewrite Hpad, app_nth1 by lia. reflexivity.
  - rewrite Hpad. destruct (Nat.lt_ge_cases (S i) (length data)) as [Hlt | Hge].
    + rewrite app_nth1 by lia. f_equal. lia.
    + rewrite app_nth2 by lia.
      replace (S i - length data)%nat with 0%nat by lia.
      replace (Nat.min (i + 1) (length data - 1)) with (length data - 1)%nat by lia.
      rewrite (nth_pred_length NaN x) by discriminate. reflexivity.
Qed.

End MedianIndices.

(** X8.  The smoothed array, value by value: the value at index [i] is
    the median of the values given at [i - 1], [i] and [i + 1], the first value
    standing in before the start and the last one after the end (the edge
    padding). *)
Theorem moving_median_at (data out : list num) :
  moving_median data 3 = Ok out ->
  out
  = map (fun i => np_median [nth (i - 1) data NaN;
                             nth i data NaN;
                             nth (Nat.min (i + 1) (length data - 1)) data NaN])
      (seq 0 (length data)).
Proof.
  intros Hrun.
  assert (Hne : data <> []) by (intros ->; discriminate).
  destruct (moving_median3_in data Hne) as (out' & Hrun' & Hlen & _).
  assert (out' = out) by congruence. subst out'.
  set (f := fun i => np_median [nth (i - 1) data NaN;
                                nth i data NaN;
                                nth (Nat.min (i + 1) (length data - 1)) data NaN]).
  apply (nth_ext _ _ NaN (f 0%nat));
    [rewrite length_map, length_seq; exact Hlen |].
  intros i Hi. rewrite Hlen in Hi.
  rewrite (moving_median_nth data out i Hrun Hi).
  rewrite (map_nth f), seq_nth by exact Hi. reflexivity.
Qed.

Lemma moving_median_at_witness :
  moving_median [Fin 1; Fin 5; Fin 2] 3 = Ok [Fin 1; Fin 2; Fin 2]
  /\ [Fin 1; Fin 2; Fin 2]
     = [np_median [Fin 1; Fin 1; Fin 5];
        np_median [Fin 1; Fin 5; Fin 2];
        np_median [Fin 5; Fin 2; Fin 2]].
Proof.
  assert (Hrun : moving_median [Fin 1; Fin 5; Fin 2] 3 = Ok [Fin 1; Fin 2; Fin 2])
    by reflexivity.
  split; [exact Hrun |].
  exact (moving_median_at _ _ Hrun).
Defined.

(** ** More on the detection passes *)

Section PassOutcomes.




End PassOutcomes.





(** ** Few peaks in the serial bridges *)

Section FewPeaks.

Local Open Scope Q_scope.

Lemma peak_time (p : Z) :
  Num.div (Num.of_Z p) (Num.of_Z LiveSerial.fs)
  = Fin (inject_Z p / inject_Z LiveSerial.fs).
Proof. reflexivity. Qed.


(** [scipy.signal.medfilt] of a single value is zero: the value stands
    between the two zeros of the padding. *)
Lemma medfilt_single (x : Q) :
  exists z, medfilt [Fin x] 3 = [Fin z] /\ z == 0.
Proof.
  unfold medfilt, windows, np_median, sort. simpl.
  qsplit; eexists; (split; [reflexivity |]); lra.
Qed.


End FewPeaks.

(** X11.  With exactly two peaks the pass of
    [bridge_live_test.py] and [bridge_live_test2.py] always skips: [medfilt]
    replaces the only RR interval by the median of itself and two padding
    zeros, which is 0, the estimate is [60 / 0 = inf], and the sanity band
    rejects it.  Nothing is sent and the state is unchanged. *)
Theorem serial_two_peaks_are_skipped
  (thr : num) (st : mapping_state) (p0 p1 : Z) :
  LiveSerial.detection_pass thr st [p0; p1] = Ok (st, []).
Proof.
  apply serial_pass_sanity_band.
  unfold LiveSerial.bpm_values_of. cbn [map np_diff]. rewrite !peak_time.
  cbn [Num.sub Num.opp Num.add].
  destruct (medfilt_single
              (inject_Z p1 / inject_Z LiveSerial.fs
               + - (inject_Z p0 / inject_Z LiveSerial.fs))) as (z & -> & Hz).
  unfold bpm_of_rr. cbn [map Num.div].
  rewrite (proj2 (Qeq_bool_iff _ _) Hz). reflexivity.
Qed.



(** ** The estimate of the serial bridges *)

Section Estimate.

Lemma np_diff_length (a : list num) : length (np_diff a) = (length a - 1)%nat.
Proof.
  induction a as [| x [| y t] IH]; try reflexivity.
  change (np_diff (x :: y :: t)) with (Num.sub y x :: np_diff (y :: t)).
  simpl length in *. rewrite IH. lia.
Qed.

Lemma np_diff_finite (a : list num) :
  Forall (fun x => is_finite x = true) a ->
  Forall (fun x => is_finite x = true) (np_diff a).
Proof.
  induction a as [| x [| y t] IH]; intros H; try constructor.
  - inversion H as [| ? ? Hx Ht]. inversion Ht as [| ? ? Hy _]. subst.
    destruct x, y; try discriminate. reflexivity.
  - apply IH. inversion H. assumption.
Qed.







End Estimate.



(** ** Peak spacing and the upper bound of the sanity band *)

Section Spacing.

Local Open Scope Q_scope.






End Spacing.



(** ** Rates beyond the clamps of the serial bridges *)

Section Extremes.

Local Open Scope Q_scope.





End Extremes.



(** ** The estimate of the LSL bridge *)

Section LastInterval.

(** The median of a number and twice another is the other. *)
Lemma np_median_pair (a b : Q) : np_median [Fin a; Fin b; Fin b] = Fin b.
Proof. unfold np_median, sort. simpl. qsplit; reflexivity. Qed.

Lemma last_map_div (rr : list num) :
  rr <> [] -> last (bpm_of_rr rr) NaN = Num.div (Fin 60) (last rr NaN).
Proof.
  intros Hne. unfold bpm_of_rr.
  induction rr as [| x t IH]; [contradiction |].
  destruct t as [| y t]; [reflexivity |].
  change (last (Num.div (Fin 60) y :: map (Num.div (Fin 60)) t) NaN
          = Num.div (Fin 60) (last (y :: t) NaN)).
  apply IH. discriminate.
Qed.

(** The moving median leaves the last value as it is: its window holds
    the value before, the value, and the value again for the edge. *)
Lemma moving_median_last (data out : list num) :
  Forall (fun x => is_finite x = true) data ->
  moving_median data 3 = Ok out ->
  last out NaN = last data NaN.
Proof.
  intros Hfin Hrun.
  assert (Hne : data <> []) by (intros ->; discriminate).
  destruct (moving_median3_in data Hne) as (out' & Hrun' & Hlen & _).
  assert (out' = out) by congruence. subst out'.
  assert (Hpos : (0 < length data)%nat)
    by (destruct data; [contradiction | simpl; lia]).
  assert (Hne' : out <> []) by (intros ->; simpl in Hlen; lia).
  rewrite <- (nth_pred_length NaN NaN out Hne'), <- (nth_pred_length NaN NaN data Hne).
  rewrite Hlen.
  rewrite (moving_median_nth data out (length data - 1) Hrun) by lia.
  replace (Nat.min (length data - 1 + 1) (length data - 1)) with (length data - 1)%nat
    by lia.
  rewrite Forall_forall in Hfin.
  assert (Hb : is_finite (nth (length data - 1) data NaN) = true)
    by (apply Hfin, nth_In; lia).
  assert (Ha : is_finite (nth (length data - 1 - 1) data NaN) = true)
    by (apply Hfin, nth_In; lia).
  destruct (nth (length data - 1) data NaN) as [b | | |]; try discriminate.
  destruct (nth (length data - 1 - 1) data NaN) as [a | | |]; try discriminate.
  apply np_median_pair.
Qed.

End LastInterval.

(** X16.  In [bridge_live_test3.py] the estimate a pass plays and
    stores is 60 over the last raw RR interval: the moving median leaves the
    last interval as it is, its window holding the interval before it once
    and the last one twice. *)
Theorem lsl_estimate_is_unsmoothed
  (thr : num) (st st' : mapping_state) (peak_times : list num) (events : list event) :
  Forall (fun t => is_finite t = true) peak_times ->
  LiveLSL.detection_pass thr st peak_times = Ok (st', events) ->
  events <> [] ->
  last_bpm st' = Some (Num.div (Fin 60) (last (np_diff peak_times) NaN)).
Proof.
  intros Hfin Hrun Hsent. unfold LiveLSL.detection_pass in Hrun.
  destruct (2 <=? length peak_times)%nat;
    [| apply Ok_inj in Hrun; injection Hrun as _ <-; contradiction].
  destruct (moving_median (np_diff peak_times) 3) as [smoothed_rr |] eqn:Hmed;
    [| discriminate].
  cbn [bind] in Hrun.
  destruct (np_min _) as [lo |]; [| discriminate]. cbn [bind] in Hrun.
  destruct (np_max _) as [hi |]; [| discriminate]. cbn [bind] in Hrun.
  apply gated_update_outcome in Hrun.
  destruct Hrun as [[_ ->] | (n & v & -> & _)]; [contradiction |].
  cbn [last_bpm]. f_equal.
  assert (Hne : smoothed_rr <> []).
  { intros ->. destruct (np_diff peak_times); discriminate. }
  rewrite (last_map_div _ Hne). f_equal.
  apply moving_median_last; [apply np_diff_finite; exact Hfin | exact Hmed].
Qed.

Lemma lsl_estimate_is_unsmoothed_witness :
  Forall (fun t => is_finite t = true) [Fin 0; Fin 1; Fin (9 # 5)]
  /\ exists st' events,
       LiveLSL.detection_pass LiveLSL.bpm_change_threshold initial_state
         [Fin 0; Fin 1; Fin (9 # 5)] = Ok (st', events)
       /\ events <> []
       /\ last_bpm st' = Some (Num.div (Fin 60) (Fin ((9 # 5) + - 1))).
Proof.
  assert (Hfin : Forall (fun t => is_finite t = true) [Fin 0; Fin 1; Fin (9 # 5)])
    by (repeat constructor).
  split; [exact Hfin |].
  destruct (LiveLSL.detection_pass LiveLSL.bpm_change_threshold initial_state
              [Fin 0; Fin 1; Fin (9 # 5)]) as [[st' events] | e] eqn:Hrun.
  - assert (Hsent : events <> []).
    { intros ->. vm_compute in Hrun. discriminate. }
    exists st', events. split; [reflexivity |]. split; [exact Hsent |].
    exact (lsl_estimate_is_unsmoothed _ _ _ _ _ Hfin Hrun Hsent).
  - vm_compute in Hrun. discriminate.
Defined.

(** ** A perfectly regular rhythm *)

Section RegularRhythm.

Local Open Scope Q_scope.

Lemma bpm_of_rr_equals (d : Q) (rr : list num) :
  0 < d -> Forall (equals d) rr -> Forall (equals (60 / d)) (bpm_of_rr rr).
Proof.
  intros Hd H. unfold bpm_of_rr.
  induction H as [| x t (q & -> & Hq) _ IH]; constructor; [| exact IH].
  exists (60 / q). split.
  - simpl. rewrite Qeq_bool_false by lra. reflexivity.
  - rewrite Hq. reflexivity.
Qed.

Lemma fold_minimum_equals (c : Q) (t : list num) :
  forall x, equals c x -> Forall (equals c) t -> equals c (fold_left Num.minimum t x).
Proof.
  induction t as [| y t IH]; intros x Hx Ht; [exact Hx |].
  inversion Ht as [| ? ? Hy Ht']. subst. simpl. apply IH; [| exact Ht'].
  destruct Hx as (qx & -> & Hqx), Hy as (qy & -> & Hqy).
  unfold Num.minimum. simpl. destruct (Qle_bool qx qy); simpl; eexists; eauto.
Qed.

Lemma fold_maximum_equals (c : Q) (t : list num) :
  forall x, equals c x -> Forall (equals c) t -> equals c (fold_left Num.maximum t x).
Proof.
  induction t as [| y t IH]; intros x Hx Ht; [exact Hx |].
  inversion Ht as [| ? ? Hy Ht']. subst. simpl. apply IH; [| exact Ht'].
  destruct Hx as (qx & -> & Hqx), Hy as (qy & -> & Hqy).
  unfold Num.maximum. simpl. destruct (Qle_bool qy qx); simpl; eexists; eauto.
Qed.

(** With all RR intervals equal the smoothed BPM values are all equal, and
    so are their minimum and their maximum. *)
Lemma regular_rhythm_range (d : Q) (rr : list num) :
  0 < d -> rr <> [] -> Forall (equals d) rr ->
  exists smoothed_rr lo hi,
    moving_median rr 3 = Ok smoothed_rr
    /\ np_min (bpm_of_rr smoothed_rr) = Ok (Fin lo)
    /\ np_max (bpm_of_rr smoothed_rr) = Ok (Fin hi)
    /\ lo == hi.
Proof.
  intros Hd Hne Hrr.
  destruct (moving_median3_in rr Hne) as (out & Hrun & Hlen & Hin).
  assert (Hout : Forall (equals d) out).
  { rewrite Forall_forall in *. intros y Hy. apply Hrr, Hin, Hy. }
  apply (bpm_of_rr_equals d out Hd) in Hout.
  destruct (bpm_of_rr out) as [| x t] eqn:Hb.
  { destruct out; [| discriminate]. destruct rr; [contradiction | discriminate]. }
  inversion Hout as [| ? ? Hx Ht]. subst.
  destruct (fold_minimum_equals _ t x Hx Ht) as (lo & Hlo & Hloq).
  destruct (fold_maximum_equals _ t x Hx Ht) as (hi & Hhi & Hhiq).
  exists out, lo, hi. rewrite Hb. unfold np_min, np_max. rewrite Hlo, Hhi.
  split; [exact Hrun |]. split; [reflexivity |]. split; [reflexivity |].
  apply Qeq_trans with (60 / d); [exact Hloq | apply Qeq_sym; exact Hhiq].
Qed.

Lemma np_diff_nonempty (a : list num) :
  (2 <= length a)%nat -> np_diff a <> [].
Proof.
  intros H Hnil. pose proof (np_diff_length a) as Hl.
  rewrite Hnil in Hl. simpl in Hl. lia.
Qed.

End RegularRhythm.

(** X17.  In [bridge_live_test3.py], when all RR intervals
    computed from two peaks or more are equal to one positive number and no
    estimate is stored yet, the pass raises [ValueError]: the smoothed BPM
    values are all equal, [min_bpm] equals [max_bpm], and the note mapper
    converts [0/0] to an integer. *)
Theorem lsl_regular_rhythm_raises
  (thr : num) (st : mapping_state) (peak_times : list num) (d : Q) :
  (2 <= length peak_times)%nat ->
  (0 < d)%Q ->
  Forall (equals d) (np_diff peak_times) ->
  last_bpm st = None ->
  LiveLSL.detection_pass thr st peak_times = Raise ValueError.
Proof.
  intros Hlen Hd Hrr Hlast.
  destruct (regular_rhythm_range d _ Hd (np_diff_nonempty _ Hlen) Hrr)
    as (smoothed_rr & lo & hi & Hrun & Hmin & Hmax & Heq).
  unfold LiveLSL.detection_pass.
  destruct (Nat.leb_spec 2 (length peak_times)) as [_ | Hlt]; [| lia].
  rewrite Hrun. cbn [bind]. rewrite Hmin, Hmax. cbn [bind].
  unfold gated_update. rewrite Hlast. cbn [gate_opens].
  unfold bpm_to_note_quantized. rewrite (normalize_degenerate_eq _ _ _ Heq).
  reflexivity.
Qed.

Lemma lsl_regular_rhythm_raises_witness :
  (2 <= length [Fin 0; Fin 1; Fin 2])%nat
  /\ (0 < 1)%Q
  /\ Forall (equals 1) (np_diff [Fin 0; Fin 1; Fin 2])
  /\ last_bpm initial_state = None
  /\ LiveLSL.detection_pass LiveLSL.bpm_change_threshold initial_state
       [Fin 0; Fin 1; Fin 2]
     = Raise ValueError.
Proof.
  assert (Hlen : (2 <= length [Fin 0; Fin 1; Fin 2])%nat) by (simpl; lia).
  assert (Hd : (0 < 1)%Q) by reflexivity.
  assert (Hrr : Forall (equals 1) (np_diff [Fin 0; Fin 1; Fin 2])).
  { repeat constructor; eexists; (split; [reflexivity | reflexivity]). }
  assert (Hlast : last_bpm initial_state = None) by reflexivity.
  split; [exact Hlen |]. split; [exact Hd |]. split; [exact Hrr |].
  split; [exact Hlast |].
  exact (lsl_regular_rhythm_raises LiveLSL.bpm_change_threshold initial_state
           [Fin 0; Fin 1; Fin 2] 1 Hlen Hd Hrr Hlast).
Defined.

(** X18.  In [bridge_prerecorded_modulation.py], when all RR
    intervals computed from the peaks (two or more) are equal to one positive
    number and the first peak is not below 0.8, the script raises
    [ValueError] at the first peak, before any message is sent. *)
Theorem prerecorded_regular_rhythm_raises
  (peak : num * num) (peaks : list (num * num)) (d : Q) :
  peaks <> [] ->
  (0 < d)%Q ->
  Forall (equals d) (np_diff (map fst (peak :: peaks))) ->
  Num.ltb (snd peak) (Fin (8 # 10)) = false ->
  PrerecordedLoop.play (peak :: peaks) = Raise ValueError.
Proof.
  intros Hne Hd Hrr Hheight.
  assert (Hlen : (2 <= length (map fst (peak :: peaks)))%nat).
  { destruct peaks; [contradiction | simpl; lia]. }
  destruct (regular_rhythm_range d _ Hd (np_diff_nonempty _ Hlen) Hrr)
    as (smoothed_rr & lo & hi & Hrun & Hmin & Hmax & Heq).
  unfold PrerecordedLoop.play, PrerecordedLoop.analyse.
  destruct (Nat.ltb_spec (length (map fst (peak :: peaks))) 2) as [Hlt | _]; [lia |].
  rewrite Hrun. cbn [bind]. rewrite Hmin, Hmax. cbn [bind].
  cbn [map PrerecordedLoop.play_from]. unfold PrerecordedLoop.play_peak.
  rewrite Hheight. cbn [PrerecordedLoop.min_bpm PrerecordedLoop.max_bpm].
  unfold bpm_to_cc113. rewrite (normalize_degenerate_eq _ _ _ Heq).
  reflexivity.
Qed.

Lemma prerecorded_regular_rhythm_raises_witness :
  [(Fin 1, Fin 1); (Fin 2, Fin 1)] <> []
  /\ (0 < 1)%Q
  /\ Forall (equals 1) (np_diff (map fst [(Fin 0, Fin 1); (Fin 1, Fin 1); (Fin 2, Fin 1)]))
  /\ Num.ltb (snd (Fin 0, Fin 1)) (Fin (8 # 10)) = false
  /\ PrerecordedLoop.play [(Fin 0, Fin 1); (Fin 1, Fin 1); (Fin 2, Fin 1)]
     = Raise ValueError.
Proof.
  assert (Hne : [(Fin 1, Fin 1); (Fin 2, Fin 1)] <> []) by discriminate.
  assert (Hd : (0 < 1)%Q) by reflexivity.
  assert (Hrr : Forall (equals 1)
                  (np_diff (map fst [(Fin 0, Fin 1); (Fin 1, Fin 1); (Fin 2, Fin 1)]))).
  { repeat constructor; eexists; (split; [reflexivity | reflexivity]). }
  assert (Hheight : Num.ltb (snd (Fin 0, Fin 1)) (Fin (8 # 10)) = false) by reflexivity.
  split; [exact Hne |]. split; [exact Hd |]. split; [exact Hrr |].
  split; [exact Hheight |].
  exact (prerecorded_regular_rhythm_raises (Fin 0, Fin 1)
           [(Fin 1, Fin 1); (Fin 2, Fin 1)] 1 Hne Hd Hrr Hheight).
Defined.

(** ** Sample buffers *)

Section SerialBuffer.

Import SerialLoop.

Lemma push_cons (x : num) (t : list num) (v : num) :
  push (x :: t) v = Some (t ++ [v]).
Proof.
  unfold push, np_roll_left, set_last.
  destruct (t ++ [x]) as [| y l] eqn:E.
  - destruct t; discriminate.
  - rewrite <- E, removelast_last. reflexivity.
Qed.

(** One iteration on a sample and a non-empty buffer. *)
Lemma iteration_sample
  (detect_peaks : list num -> list Z) (s : state) (x : num) (t : list num) (v : num) :
  ecg_buffer s = x :: t ->
  (exists e, iteration detect_peaks s (Some v) = Stop (Raised e))
  \/ (exists s' events,
        iteration detect_peaks s (Some v) = Continue (s', events)
        /\ ecg_buffer s' = t ++ [v]
        /\ sample_count s' = sample_count s + 1
        /\ (length events <= 2)%nat
        /\ ((sample_count s + 1) mod period <> 0 ->
            events = [] /\ mapping s' = mapping s)).
Proof.
  intros Hbuf. unfold iteration. rewrite Hbuf, push_cons.
  destruct (Z.eqb_spec ((sample_count s + 1) mod period) 0) as [Hp | Hp].
  - destruct (LiveSerial.detection_pass _ _ _) as [[m events] |] eqn:Hrun.
    + right. eexists. eexists. split; [reflexivity |]. repeat split; try contradiction.
      unfold LiveSerial.detection_pass in Hrun.
      destruct (1 <? _)%nat; [| apply Ok_inj in Hrun; injection Hrun as _ <-; simpl; lia].
      destruct (LiveSerial.out_of_band _);
        [apply Ok_inj in Hrun; injection Hrun as _ <-; simpl; lia |].
      destruct (LiveSerial.bpm_range _) as [range |]; [| discriminate].
      simpl in Hrun. apply gated_update_outcome in Hrun.
      destruct Hrun as [[_ ->] | (n & v' & _ & ->)]; simpl; lia.
    + left. eexists. reflexivity.
  - right. eexists. eexists. split; [reflexivity |]. simpl.
    repeat split; lia.
Qed.

End SerialBuffer.

(** X19.  The rolling buffer of [bridge_live_test.py] and
    [bridge_live_test2.py]: from a non-empty buffer the loop never fails on
    [ecg_buffer[-1]], and after any run that is still going the buffer has its
    original length and holds the old contents followed by the samples read,
    less as many of the oldest values as samples were read; [sample_count] has
    grown by the number of samples, blank and unparsable lines counting for
    nothing. *)
Theorem serial_buffer_holds_latest_samples
  (detect_peaks : list num -> list Z) (lines : list (option num))
  (s : SerialLoop.state) :
  SerialLoop.ecg_buffer s <> [] ->
  SerialLoop.run detect_peaks s lines <> Stop IndexError
  /\ forall s' events,
       SerialLoop.run detect_peaks s lines = Continue (s', events) ->
       let samples := SerialLoop.samples_of lines in
       SerialLoop.ecg_buffer s'
       = skipn (length samples) (SerialLoop.ecg_buffer s ++ samples)
       /\ length (SerialLoop.ecg_buffer s') = length (SerialLoop.ecg_buffer s)
       /\ SerialLoop.sample_count s'
          = SerialLoop.sample_count s + Z.of_nat (length samples).
Proof.
  revert s. induction lines as [| line rest IH]; intros s Hne.
  - split; [discriminate |]. intros s' events H. simpl in H.
    injection H as <- _. simpl. rewrite app_nil_r. repeat split. lia.
  - destruct line as [v |].
    + destruct (SerialLoop.ecg_buffer s) as [| x t] eqn:Hbuf; [contradiction |].
      destruct (iteration_sample detect_peaks s x t v Hbuf)
        as [(e & Hit) | (s1 & ev1 & Hit & Hb1 & Hc1 & _)].
      * cbn [SerialLoop.run]. rewrite Hit. split; [discriminate | intros; discriminate].
      * assert (Hne1 : SerialLoop.ecg_buffer s1 <> [])
          by (rewrite Hb1; destruct t; discriminate).
        destruct (IH s1 Hne1) as [Hstop Hcont].
        cbn [SerialLoop.run]. rewrite Hit.
        destruct (SerialLoop.run detect_peaks s1 rest) as [[s2 ev2] | f] eqn:Hrun.
        -- split; [discriminate |]. intros s' events H. injection H as <- _.
           destruct (Hcont s2 ev2 eq_refl) as (Hb2 & Hl2 & Hc2).
           cbn [SerialLoop.samples_of length]. cbv zeta.
           split; [| split].
           ++ rewrite Hb2, Hb1. cbn [app skipn]. rewrite <- app_assoc. reflexivity.
           ++ rewrite Hl2, Hb1, length_app. simpl. lia.
           ++ rewrite Hc2, Hc1. lia.
        -- split; [| intros; discriminate].
           intros H. injection H as ->. apply Hstop. reflexivity.
    + destruct (IH s Hne) as [Hstop Hcont].
      cbn [SerialLoop.run SerialLoop.iteration SerialLoop.samples_of].
      destruct (SerialLoop.run detect_peaks s rest) as [[s2 ev2] | f] eqn:Hrun.
      * split; [discriminate |]. intros s' events H. injection H as <- _.
        exact (Hcont s2 ev2 eq_refl).
      * split; [| intros; discriminate].
        intros H. injection H as ->. apply Hstop. reflexivity.
Qed.

Lemma serial_buffer_holds_latest_samples_witness :
  let s := {| SerialLoop.ecg_buffer := [Fin 0; Fin 0; Fin 0];
              SerialLoop.sample_count := 0;
              SerialLoop.mapping := initial_state |} in
  SerialLoop.ecg_buffer s <> []
  /\ SerialLoop.run (fun _ => []) s [Some (Fin 1); None; Some (Fin 2)] <> Stop IndexError.
Proof.
  intros s.
  assert (Hne : SerialLoop.ecg_buffer s <> []) by discriminate.
  split; [exact Hne |].
  exact (proj1 (serial_buffer_holds_latest_samples (fun _ => [])
                  [Some (Fin 1); None; Some (Fin 2)] s Hne)).
Defined.

(** ** Cadence of the detection passes *)

Section SerialCadence.

Import SerialLoop.

Lemma period_quotient (c : Z) :
  0 <= c ->
  ((c + 1) mod period = 0 -> (c + 1) / period = c / period + 1)
  /\ ((c + 1) mod period <> 0 -> (c + 1) / period = c / period).
Proof.
  intros Hc. change period with 250.
  split; intros H; Z.to_euclidean_division_equations; lia.
Qed.

End SerialCadence.

(** X20.  Messages are sent only when [sample_count] reaches a
    multiple of [int(fs / 4) = 250]: over any run that is still going, at most
    two messages are sent per multiple of 250 passed, and when none is passed
    nothing is sent and the mapping state is unchanged. *)
Theorem serial_loop_cadence
  (detect_peaks : list num -> list Z) (lines : list (option num))
  (s s' : SerialLoop.state) (events : list event) :
  SerialLoop.ecg_buffer s <> [] ->
  0 <= SerialLoop.sample_count s ->
  SerialLoop.run detect_peaks s lines = Continue (s', events) ->
  let passes :=
    SerialLoop.sample_count s' / SerialLoop.period
    - SerialLoop.sample_count s / SerialLoop.period in
  Z.of_nat (length events) <= 2 * passes
  /\ (passes = 0 -> events = [] /\ SerialLoop.mapping s' = SerialLoop.mapping s).
Proof.
  revert s s' events.
  induction lines as [| line rest IH]; intros s s' events Hne Hc Hrun.
  - simpl in Hrun. injection Hrun as <- <-. cbv zeta. rewrite Z.sub_diag. simpl.
    split; [lia | intros _; split; reflexivity].
  - destruct line as [v |].
    + destruct (SerialLoop.ecg_buffer s) as [| x t] eqn:Hbuf; [contradiction |].
      destruct (iteration_sample detect_peaks s x t v Hbuf)
        as [(e & Hit) | (s1 & ev1 & Hit & Hb1 & Hc1 & Hlen1 & Hquiet)].
      * cbn [SerialLoop.run] in Hrun. rewrite Hit in Hrun. discriminate.
      * cbn [SerialLoop.run] in Hrun. rewrite Hit in Hrun.
        destruct (SerialLoop.run detect_peaks s1 rest) as [[s2 ev2] | f] eqn:Hrest;
          [| discriminate].
        injection Hrun as <- <-.
        assert (Hne1 : SerialLoop.ecg_buffer s1 <> [])
          by (rewrite Hb1; destruct t; discriminate).
        assert (Hc1' : 0 <= SerialLoop.sample_count s1) by lia.
        destruct (IH s1 s2 ev2 Hne1 Hc1' Hrest) as [Hbound Hfrozen].
        cbv zeta in *. rewrite Hc1 in *.
        destruct (period_quotient (SerialLoop.sample_count s) Hc) as [Hq1 Hq0].
        rewrite length_app.
        set (q2 := SerialLoop.sample_count s2 / SerialLoop.period) in *.
        set (q1 := (SerialLoop.sample_count s + 1) / SerialLoop.period) in *.
        set (q0 := SerialLoop.sample_count s / SerialLoop.period) in *.
        set (m := (SerialLoop.sample_count s + 1) mod SerialLoop.period) in *.
        clearbody q2 q1 q0 m.
        destruct (Z.eq_dec m 0) as [Hmod | Hmod].
        -- specialize (Hq1 Hmod). split; [lia |]. intros Hz. exfalso. lia.
        -- specialize (Hq0 Hmod). destruct (Hquiet Hmod) as [-> Hm1].
           split; [cbn [length Nat.add]; lia |]. intros Hz.
           destruct Hfrozen as [-> Hm2]; [lia |].
           split; [reflexivity | congruence].
    + cbn [SerialLoop.run SerialLoop.iteration] in Hrun.
      destruct (SerialLoop.run detect_peaks s rest) as [[s2 ev2] | f] eqn:Hrest;
        [| discriminate].
      injection Hrun as <- <-. simpl app.
      exact (IH s s2 ev2 Hne Hc Hrest).
Qed.

Lemma serial_loop_cadence_witness :
  let s := {| SerialLoop.ecg_buffer := [Fin 0; Fin 0; Fin 0];
              SerialLoop.sample_count := 0;
              SerialLoop.mapping := initial_state |} in
  let s' := {| SerialLoop.ecg_buffer := [Fin 0; Fin 1; Fin 2];
               SerialLoop.sample_count := 2;
               SerialLoop.mapping := initial_state |} in
  SerialLoop.ecg_buffer s <> []
  /\ 0 <= SerialLoop.sample_count s
  /\ SerialLoop.run (fun _ => []) s [Some (Fin 1); None; Some (Fin 2)] = Continue (s', [])
  /\ Z.of_nat (length (@nil event))
     <= 2 * (SerialLoop.sample_count s' / SerialLoop.period
             - SerialLoop.sample_count s / SerialLoop.period).
Proof.
  intros s s'.
  assert (Hne : SerialLoop.ecg_buffer s <> []) by discriminate.
  assert (Hc : 0 <= SerialLoop.sample_count s) by (simpl; lia).
  assert (Hrun : SerialLoop.run (fun _ => []) s [Some (Fin 1); None; Some (Fin 2)]
                 = Continue (s', [])) by reflexivity.
  split; [exact Hne |]. split; [exact Hc |]. split; [exact Hrun |].
  exact (proj1 (serial_loop_cadence (fun _ => []) _ s s' [] Hne Hc Hrun)).
Defined.

(** ** Buffers of the LSL bridge *)

Section LSLBuffers.

Lemma slice_last_length {A : Type} (k : nat) (l : list A) :
  length (slice_last k l) = if (k =? 0)%nat then length l else Nat.min k (length l).
Proof.
  unfold slice_last. destruct (k =? 0)%nat; [reflexivity |].
  rewrite length_skipn. lia.
Qed.

Lemma slice_last_snoc {A : Type} (k : nat) (l : list A) (x : A) :
  slice_last k (l ++ [x])
  = if (k <? length (slice_last k l ++ [x]))%nat
    then slice_last k (slice_last k l ++ [x])
    else slice_last k l ++ [x].
Proof.
  pose proof (slice_last_length k l) as Hlen.
  unfold slice_last in *. destruct (Nat.eqb_spec k 0) as [-> | Hk].
  - destruct (0 <? _)%nat; reflexivity.
  - rewrite !length_app, Hlen. cbn [length].
    destruct (Nat.ltb_spec k (Nat.min k (length l) + 1)) as [Hfull | Hroom].
    + assert (Hk' : (k <= length l)%nat) by lia.
      rewrite skipn_app.
      replace (length l + 1 - k - length l)%nat with 0%nat by lia.
      rewrite skipn_app, skipn_skipn, length_skipn.
      replace (Nat.min k (length l) + 1 - k - (length l - (length l - k)))%nat with 0%nat by lia.
      replace (Nat.min k (length l) + 1 - k + (length l - k))%nat
        with (length l + 1 - k)%nat by lia.
      reflexivity.
    + replace (length l + 1 - k)%nat with 0%nat by lia.
      replace (length l - k)%nat with 0%nat by lia. reflexivity.
Qed.

(** One more sample on buffers that hold the last [buffer_size] of the
    samples before it. *)
Lemma append_trim_slices (buffer_size : nat) (prev : list (num * num)) (sample : num * num) :
  LSLBuffer.append_trim buffer_size
    (slice_last buffer_size (map fst prev), slice_last buffer_size (map snd prev)) sample
  = ((slice_last buffer_size (map fst (prev ++ [sample])),
      slice_last buffer_size (map snd (prev ++ [sample]))),
     (buffer_size <? S (length prev))%nat).
Proof.
  unfold LSLBuffer.append_trim. cbn [fst snd].
  rewrite !map_app. cbn [map].
  rewrite (slice_last_snoc buffer_size (map fst prev)).
  rewrite (slice_last_snoc buffer_size (map snd prev)).
  assert (Hsame : length (slice_last buffer_size (map snd prev) ++ [snd sample])
                  = length (slice_last buffer_size (map fst prev) ++ [fst sample])).
  { rewrite !length_app, !slice_last_length, !length_map. reflexivity. }
  rewrite Hsame.
  assert (Hflag : (buffer_size <? length (slice_last buffer_size (map fst prev)
                                          ++ [fst sample]))%nat
                  = (buffer_size <? S (length prev))%nat).
  { rewrite length_app, slice_last_length, length_map. simpl length.
    destruct (Nat.eqb_spec buffer_size 0) as [-> | Hk].
    - destruct (Nat.ltb_spec 0 (length prev + 1));
        destruct (Nat.ltb_spec 0 (S (length prev))); try reflexivity; lia.
    - destruct (Nat.ltb_spec buffer_size (Nat.min buffer_size (length prev) + 1));
        destruct (Nat.ltb_spec buffer_size (S (length prev))); try reflexivity; lia. }
  rewrite Hflag.
  destruct (buffer_size <? S (length prev))%nat; reflexivity.
Qed.

Lemma slice_last_all {A : Type} (k : nat) (l : list A) :
  (length l <= k)%nat -> slice_last k l = l.
Proof.
  intros H. unfold slice_last. destruct (k =? 0)%nat; [reflexivity |].
  replace (length l - k)%nat with 0%nat by lia. reflexivity.
Qed.

End LSLBuffers.

(** X21.  The buffers of [bridge_live_test3.py] after any sequence
    of samples, from empty: each is the last [buffer_size] values received
    (all of them when [buffer_size] is 0, [a[-0:]] being [a]), and the
    iteration of sample number [i] (from 0) goes on to peak detection exactly
    when [buffer_size < i + 1]: never before the buffer has overflowed once,
    and at every sample from then on. *)
Theorem lsl_buffers_closed_form (buffer_size : nat) (samples : list (num * num)) :
  LSLBuffer.feed buffer_size ([], []) samples
  = ((slice_last buffer_size (map fst samples),
      slice_last buffer_size (map snd samples)),
     map (fun i => (buffer_size <? S i)%nat) (seq 0 (length samples))).
Proof.
  unfold LSLBuffer.feed.
  induction samples as [| sample samples IH] using rev_ind.
  - unfold slice_last. destruct (buffer_size =? 0)%nat; reflexivity.
  - rewrite fold_left_app, IH. cbn [fold_left fst snd].
    rewrite append_trim_slices. cbn [fst snd].
    rewrite length_app, Nat.add_1_r, seq_S, !map_app. reflexivity.
Qed.

(** ** The loop of the LSL bridge *)

Section LSLCadence.

Import LSLLoop.

Lemma lsl_pass_length (thr : num) (st st' : mapping_state) (peak_times : list num)
  (events : list event) :
  LiveLSL.detection_pass thr st peak_times = Ok (st', events) ->
  (length events <= 2)%nat.
Proof.
  unfold LiveLSL.detection_pass.
  destruct (2 <=? length peak_times)%nat;
    [| intros H; apply Ok_inj in H; injection H as _ <-; simpl; lia].
  destruct (moving_median _ _) as [smoothed_rr |]; [| discriminate]. cbn [bind].
  destruct (np_min _) as [lo |]; [| discriminate]. cbn [bind].
  destruct (np_max _) as [hi |]; [| discriminate]. cbn [bind].
  intros H. apply gated_update_outcome in H.
  destruct H as [[_ ->] | (n & v & _ & ->)]; simpl; lia.
Qed.

(** One iteration on buffers that hold the last [buffer_size] of the
    samples before it. *)
Lemma iteration_slices
  (buffer_size : nat) (detect_peaks : list num -> list num -> list num)
  (prev : list (num * num)) (s : state) (sample : num * num) :
  ecg_buffer s = slice_last buffer_size (map fst prev) ->
  time_buffer s = slice_last buffer_size (map snd prev) ->
  ((length prev < buffer_size)%nat ->
   iteration buffer_size detect_peaks s sample
   = Ok ({| ecg_buffer := slice_last buffer_size (map fst (prev ++ [sample]));
            time_buffer := slice_last buffer_size (map snd (prev ++ [sample]));
            mapping := mapping s |}, []))
  /\ (forall r,
        iteration buffer_size detect_peaks s sample = Ok r ->
        ecg_buffer (fst r) = slice_last buffer_size (map fst (prev ++ [sample]))
        /\ time_buffer (fst r) = slice_last buffer_size (map snd (prev ++ [sample]))
        /\ (length (snd r) <= 2)%nat).
Proof.
  intros He Ht. unfold iteration. rewrite He, Ht, append_trim_slices. cbn [fst snd].
  split.
  - intros Hlen.
    destruct (Nat.ltb_spec buffer_size (S (length prev))) as [| _]; [lia | reflexivity].
  - intros r.
    destruct (buffer_size <? S (length prev))%nat.
    + destruct (LiveLSL.detection_pass _ _ _) as [[st' events] |] eqn:Hpass;
        [| discriminate].
      cbn [bind fst snd]. intros H. apply Ok_inj in H. subst r. cbn [fst snd].
      repeat split; try reflexivity. exact (lsl_pass_length _ _ _ _ _ Hpass).
    + intros H. apply Ok_inj in H. subst r. cbn [fst snd length].
      repeat split; try reflexivity. lia.
Qed.

Lemma run_slices
  (buffer_size : nat) (detect_peaks : list num -> list num -> list num)
  (samples : list (num * num)) :
  forall (prev : list (num * num)) (s : state),
    ecg_buffer s = slice_last buffer_size (map fst prev) ->
    time_buffer s = slice_last buffer_size (map snd prev) ->
    ((length prev + length samples <= buffer_size)%nat ->
     run buffer_size detect_peaks s samples
     = Ok ({| ecg_buffer := slice_last buffer_size (map fst (prev ++ samples));
              time_buffer := slice_last buffer_size (map snd (prev ++ samples));
              mapping := mapping s |}, []))
    /\ (forall r,
          run buffer_size detect_peaks s samples = Ok r ->
          ecg_buffer (fst r) = slice_last buffer_size (map fst (prev ++ samples))
          /\ time_buffer (fst r) = slice_last buffer_size (map snd (prev ++ samples))
          /\ (length (snd r) + 2 * (length prev - buffer_size)
              <= 2 * (length prev + length samples - buffer_size))%nat).
Proof.
  induction samples as [| sample rest IH]; intros prev s He Ht.
  - cbn [run length]. rewrite app_nil_r, Nat.add_0_r. split.
    + intros _. rewrite <- He, <- Ht. destruct s; reflexivity.
    + intros r H. apply Ok_inj in H. subst r. cbn [fst snd length].
      repeat split; try assumption. lia.
  - destruct (iteration_slices buffer_size detect_peaks prev s sample He Ht)
      as [Hquiet Hany].
    replace (prev ++ sample :: rest) with ((prev ++ [sample]) ++ rest)
      by (rewrite <- app_assoc; reflexivity).
    cbn [run length]. split.
    + intros Hlen. rewrite Hquiet by lia. cbn [bind fst snd].
      destruct (IH (prev ++ [sample])
                  {| ecg_buffer := slice_last buffer_size (map fst (prev ++ [sample]));
                     time_buffer := slice_last buffer_size (map snd (prev ++ [sample]));
                     mapping := mapping s |} eq_refl eq_refl) as [Hrest _].
      rewrite Hrest by (rewrite length_app; simpl; lia). reflexivity.
    + intros r.
      destruct (iteration buffer_size detect_peaks s sample) as [r1 |] eqn:H1;
        [| discriminate].
      cbn [bind].
      destruct (run buffer_size detect_peaks (fst r1) rest) as [r2 |] eqn:H2;
        [| discriminate].
      cbn [bind]. intros H. apply Ok_inj in H. subst r. cbn [fst snd].
      destruct (Hany r1 eq_refl) as (He1 & Ht1 & Hl1).
      destruct (IH (prev ++ [sample]) (fst r1) He1 Ht1) as [_ Hrest].
      destruct (Hrest r2 H2) as (He2 & Ht2 & Hl2).
      split; [exact He2 |]. split; [exact Ht2 |].
      rewrite length_app in Hl2 |- *. cbn [length] in Hl2.
      destruct (Nat.le_gt_cases (S (length prev)) buffer_size) as [Hq | Hq].
      * specialize (Hquiet Hq). apply Ok_inj in Hquiet. subst r1.
        cbn [snd length] in *. lia.
      * lia.
Qed.

End LSLCadence.

(** X22.  The loop of [bridge_live_test3.py] from start-up.
    While no more than [buffer_size] samples have arrived it does not fail,
    sends nothing and leaves the mapping state as it was, the buffers holding
    every sample.  Over any run that returns, the buffers hold the last
    [buffer_size] samples and at most two messages are sent per sample beyond
    the first [buffer_size]. *)
Theorem lsl_loop_waits_for_a_full_buffer
  (buffer_size : nat) (detect_peaks : list num -> list num -> list num)
  (samples : list (num * num)) :
  ((length samples <= buffer_size)%nat ->
   LSLLoop.run buffer_size detect_peaks LSLLoop.initial samples
   = Ok ({| LSLLoop.ecg_buffer := map fst samples;
            LSLLoop.time_buffer := map snd samples;
            LSLLoop.mapping := initial_state |}, []))
  /\ (forall s' events,
        LSLLoop.run buffer_size detect_peaks LSLLoop.initial samples = Ok (s', events) ->
        LSLLoop.ecg_buffer s' = slice_last buffer_size (map fst samples)
        /\ LSLLoop.time_buffer s' = slice_last buffer_size (map snd samples)
        /\ (length events <= 2 * (length samples - buffer_size))%nat).
Proof.
  assert (He : LSLLoop.ecg_buffer LSLLoop.initial = slice_last buffer_size (map fst (@nil (num * num))))
    by (unfold slice_last; destruct (buffer_size =? 0)%nat; reflexivity).
  assert (Ht : LSLLoop.time_buffer LSLLoop.initial = slice_last buffer_size (map snd (@nil (num * num))))
    by (unfold slice_last; destruct (buffer_size =? 0)%nat; reflexivity).
  destruct (run_slices buffer_size detect_peaks samples [] LSLLoop.initial He Ht)
    as [Hquiet Hany].
  cbn [app length Nat.add] in Hquiet, Hany. split.
  - intros Hlen. rewrite (Hquiet Hlen).
    rewrite !slice_last_all by (rewrite length_map; exact Hlen). reflexivity.
  - intros s' events Hrun.
    destruct (Hany _ Hrun) as (He' & Ht' & Hl). cbn [fst snd] in He', Ht', Hl.
    split; [exact He' |]. split; [exact Ht' |]. lia.
Qed.

(** ** The controller ramp *)

Section Ramp.

Import Prerecorded PrerecordedLoop.

Lemma last_default (d d' : Z) (l : list Z) : l <> [] -> last l d = last l d'.
Proof.
  induction l as [| a l IH]; [congruence |]. intros _.
  destruct l as [| b l]; [reflexivity |].
  change (last (b :: l) d = last (b :: l) d'). apply IH. discriminate.
Qed.

Lemma cc_ramp_from_at_target (n : nat) (glide_speed : Q) (target_cc : Z) :
  cc_ramp_from n glide_speed target_cc target_cc = (target_cc, []).
Proof. destruct n; simpl; [| rewrite Z.eqb_refl]; reflexivity. Qed.

Lemma cc_ramp_from_step (n : nat) (glide_speed : Q) (target_cc cc_value : Z) :
  cc_value <> target_cc ->
  cc_ramp_from (S n) glide_speed target_cc cc_value
  = (fst (cc_ramp_from n glide_speed target_cc (cc_step glide_speed target_cc cc_value)),
     ControlChange 113 (cc_step glide_speed target_cc cc_value)
     :: snd (cc_ramp_from n glide_speed target_cc (cc_step glide_speed target_cc cc_value))).
Proof.
  intros Hne. cbn [cc_ramp_from].
  destruct (Z.eqb_spec cc_value target_cc); [contradiction | reflexivity].
Qed.

(** With enough iterations the [while] loop is the ramp. *)
Lemma cc_glide_ramp_from (fuel : nat) (glide_speed : Q) (target_cc : Z) :
  forall (n : nat) (cc_value : Z),
    Z.abs (target_cc - cc_value) <= Z.of_nat fuel ->
    Z.abs (target_cc - cc_value) <= Z.of_nat n ->
    cc_glide fuel glide_speed target_cc cc_value
    = Some (cc_ramp_from n glide_speed target_cc cc_value).
Proof.
  induction fuel as [| fuel IH]; intros n cc_value Hf Hn.
  - assert (cc_value = target_cc) as -> by lia.
    rewrite cc_glide_at_target, cc_ramp_from_at_target. reflexivity.
  - destruct (Z.eq_dec cc_value target_cc) as [-> | Hne].
    + rewrite cc_glide_at_target, cc_ramp_from_at_target. reflexivity.
    + destruct n as [| n]; [lia |].
      rewrite (cc_ramp_from_step _ _ _ _ Hne). cbn [cc_glide].
      destruct (Z.eqb_spec cc_value target_cc); [contradiction |].
      destruct (cc_step_progress glide_speed target_cc cc_value Hne) as [_ Hcl].
      cbv zeta in Hcl.
      rewrite (IH n (cc_step glide_speed target_cc cc_value)) by lia.
      destruct (cc_ramp_from n glide_speed target_cc _); reflexivity.
Qed.

Lemma cc_ramp_from_values (n : nat) (glide_speed : Q) (target_cc : Z) :
  forall cc_value : Z,
    Z.abs (target_cc - cc_value) <= Z.of_nat n ->
    exists values,
      cc_ramp_from n glide_speed target_cc cc_value
      = (target_cc, map (ControlChange 113) values)
      /\ (cc_value <= target_cc -> Sorted Z.lt (cc_value :: values))
      /\ (target_cc <= cc_value -> Sorted Z.gt (cc_value :: values))
      /\ last values cc_value = target_cc
      /\ Forall (fun v => Z.min cc_value target_cc <= v <= Z.max cc_value target_cc)
           values.
Proof.
  induction n as [| n IH]; intros cc_value Hn.
  - assert (cc_value = target_cc) as -> by lia.
    exists []. repeat split; constructor; constructor.
  - destruct (Z.eq_dec cc_value target_cc) as [-> | Hne].
    + exists []. rewrite cc_ramp_from_at_target. repeat split; constructor; constructor.
    + rewrite (cc_ramp_from_step _ _ _ _ Hne).
      destruct (cc_step_progress glide_speed target_cc cc_value Hne) as [Hin Hcl].
      cbv zeta in Hin, Hcl.
      set (next := cc_step glide_speed target_cc cc_value) in *.
      destruct (IH next) as (values & Hrun & Hup & Hdown & Hlast & Hall); [lia |].
      exists (next :: values). rewrite Hrun. cbn [fst snd map].
      split; [reflexivity |]. split; [| split; [| split]].
      * intros Hle. constructor; [apply Hup; lia |]. constructor. lia.
      * intros Hge. constructor; [apply Hdown; lia |]. constructor. lia.
      * destruct values as [| v values]; [exact Hlast |].
        change (last (next :: v :: values) cc_value) with (last (v :: values) cc_value).
        rewrite <- Hlast. apply last_default. discriminate.
      * constructor; [lia |].
        eapply Forall_impl; [| exact Hall]. cbv beta. intros v Hv. lia.
Qed.

Lemma truncate_mono (p q : Q) :
  (0 <= p)%Q -> (p <= q)%Q -> Num.truncate p <= Num.truncate q.
Proof.
  intros H0 Hpq. unfold Num.truncate.
  rewrite (proj2 (Qle_bool_iff _ _) H0).
  assert (H0' : (0 <= q)%Q) by lra.
  rewrite (proj2 (Qle_bool_iff _ _) H0').
  apply Qfloor_resp_le. exact Hpq.
Qed.

Lemma cc_increment_mono (glide_speed : Q) (target_cc c1 c2 : Z) :
  (0 <= glide_speed)%Q ->
  Z.abs (target_cc - c1) <= Z.abs (target_cc - c2) ->
  cc_increment glide_speed target_cc c1 <= cc_increment glide_speed target_cc c2.
Proof.
  intros Hg Hd. unfold cc_increment.
  apply Z.max_le_compat_l, truncate_mono.
  - assert (H : (0 <= inject_Z (Z.abs (target_cc - c1)))%Q).
    { change 0%Q with (inject_Z 0). rewrite <- Zle_Qle. lia. }
    nra.
  - rewrite Zle_Qle in Hd. nra.
Qed.

(** A step that does not reach the target is followed by one no longer. *)
Lemma cc_step_shrinks (glide_speed : Q) (target_cc cc_value : Z) :
  (0 <= glide_speed)%Q ->
  let next := cc_step glide_speed target_cc cc_value in
  Z.abs (cc_step glide_speed target_cc next - next) <= Z.abs (next - cc_value).
Proof.
  intros Hg next.
  destruct (Z.eq_dec cc_value target_cc) as [Heq | Hne].
  - assert (Hn : next = target_cc).
    { unfold next, cc_step. pose proof (cc_increment_pos glide_speed target_cc cc_value).
      destruct (Z.ltb_spec cc_value target_cc); lia. }
    rewrite Hn, Heq. unfold cc_step.
    pose proof (cc_increment_pos glide_speed target_cc target_cc).
    destruct (Z.ltb_spec target_cc target_cc); lia.
  - destruct (cc_step_progress glide_speed target_cc cc_value Hne) as [Hin Hcl].
    cbv zeta in Hin, Hcl. fold next in Hin, Hcl.
    assert (Hmono : cc_increment glide_speed target_cc next
                    <= cc_increment glide_speed target_cc cc_value)
      by (apply cc_increment_mono; [exact Hg | lia]).
    pose proof (cc_increment_pos glide_speed target_cc next) as Hpos.
    assert (Hnext : next = cc_step glide_speed target_cc cc_value) by reflexivity.
    unfold cc_step in Hnext |- *.
    destruct (Z.ltb_spec cc_value target_cc), (Z.ltb_spec next target_cc); lia.
Qed.

Lemma cc_ramp_from_eases (n : nat) (glide_speed : Q) (target_cc : Z) :
  (0 <= glide_speed)%Q ->
  forall (cc_value : Z) (values : list Z),
    cc_ramp_from n glide_speed target_cc cc_value
    = (target_cc, map (ControlChange 113) values) ->
    forall i : nat,
      (i + 2 < length (cc_value :: values))%nat ->
      Z.abs (nth (i + 2) (cc_value :: values) 0 - nth (i + 1) (cc_value :: values) 0)
      <= Z.abs (nth (i + 1) (cc_value :: values) 0 - nth i (cc_value :: values) 0).
Proof.
  intros Hg. induction n as [| n IH]; intros cc_value values Hrun i Hi.
  - cbn [cc_ramp_from] in Hrun. destruct values; [simpl in Hi; lia | discriminate].
  - destruct (Z.eq_dec cc_value target_cc) as [-> | Hne].
    + rewrite cc_ramp_from_at_target in Hrun.
      destruct values; [simpl in Hi; lia | discriminate].
    + rewrite (cc_ramp_from_step _ _ _ _ Hne) in Hrun.
      set (next := cc_step glide_speed target_cc cc_value) in *.
      destruct values as [| v values]; [discriminate |].
      cbn [map] in Hrun.
      assert (Hv : v = next) by congruence. subst v.
      assert (Hrest : cc_ramp_from n glide_speed target_cc next
                      = (target_cc, map (ControlChange 113) values)).
      { destruct (cc_ramp_from n glide_speed target_cc next) as [final sent].
        cbn [fst snd] in Hrun. congruence. }
      destruct i as [| i].
      * destruct values as [| v2 values]; [simpl in Hi; lia |].
        cbn [nth Nat.add].
        assert (Hv2 : v2 = cc_step glide_speed target_cc next).
        { destruct n as [| n]; [discriminate |].
          destruct (Z.eq_dec next target_cc) as [Heq | Hne2].
          - rewrite Heq, cc_ramp_from_at_target in Hrest. discriminate.
          - rewrite (cc_ramp_from_step _ _ _ _ Hne2) in Hrest. cbn [map] in Hrest.
            congruence. }
        rewrite Hv2. apply cc_step_shrinks. exact Hg.
      * apply (IH next values Hrest i). simpl in Hi |- *. lia.
Qed.

(** Whenever the [while] loop ends, it has run the ramp. *)
Lemma cc_glide_some_ramp_from (fuel : nat) (glide_speed : Q) (target_cc : Z) :
  forall (cc_value : Z) (r : Z * list event),
    cc_glide fuel glide_speed target_cc cc_value = Some r ->
    cc_ramp_from fuel glide_speed target_cc cc_value = r.
Proof.
  induction fuel as [| fuel IH]; intros cc_value r; cbn [cc_glide cc_ramp_from].
  - destruct (cc_value =? target_cc); [| discriminate]. congruence.
  - destruct (cc_value =? target_cc); [congruence |].
    destruct (cc_glide fuel glide_speed target_cc _) as [[final sent] |] eqn:Hrun;
      [| discriminate].
    rewrite (IH _ _ Hrun). cbn [fst snd]. congruence.
Qed.

End Ramp.

(** X23.  The controller glide, given at least
    [|target_cc - cc_value|] iterations, ends on the target having sent the
    values of a strict ramp: strictly increasing from [cc_value] when the
    target is above, strictly decreasing when it is below, the last value
    sent being the target.  It is the ramp [cc_ramp] computes. *)
Theorem cc_glide_is_a_strict_ramp
  (fuel : nat) (glide_speed : Q) (target_cc cc_value : Z) :
  Z.abs (target_cc - cc_value) <= Z.of_nat fuel ->
  exists values,
    Prerecorded.cc_glide fuel glide_speed target_cc cc_value
    = Some (target_cc, map (ControlChange 113) values)
    /\ PrerecordedLoop.cc_ramp glide_speed target_cc cc_value
       = (target_cc, map (ControlChange 113) values)
    /\ (cc_value <= target_cc -> Sorted Z.lt (cc_value :: values))
    /\ (target_cc <= cc_value -> Sorted Z.gt (cc_value :: values))
    /\ last values cc_value = target_cc.
Proof.
  intros Hfuel. unfold PrerecordedLoop.cc_ramp.
  destruct (cc_ramp_from_values (Z.to_nat (Z.abs (target_cc - cc_value)))
              glide_speed target_cc cc_value)
    as (values & Hrun & Hup & Hdown & Hlast & _); [lia |].
  exists values.
  rewrite (cc_glide_ramp_from fuel glide_speed target_cc
             (Z.to_nat (Z.abs (target_cc - cc_value))) cc_value) by lia.
  rewrite Hrun. repeat split; assumption.
Qed.

Lemma cc_glide_is_a_strict_ramp_witness :
  Z.abs (127 - 0) <= Z.of_nat 200
  /\ exists values,
       Prerecorded.cc_glide 200 Prerecorded.glide_speed 127 0
       = Some (127, map (ControlChange 113) values)
       /\ Sorted Z.lt (0 :: values)
       /\ last values 0 = 127.
Proof.
  assert (Hfuel : Z.abs (127 - 0) <= Z.of_nat 200) by (vm_compute; discriminate).
  split; [exact Hfuel |].
  destruct (cc_glide_is_a_strict_ramp 200 Prerecorded.glide_speed 127 0 Hfuel)
    as (values & Hrun & _ & Hup & _ & Hlast).
  exists values. split; [exact Hrun |]. split; [| exact Hlast].
  apply Hup. discriminate.
Defined.

(** X24.  For a [glide_speed] that is not negative the controller
    glide eases out: among the values sent, starting from [cc_value], no step
    is longer than the step before it. *)
Theorem cc_glide_eases_out
  (fuel : nat) (glide_speed : Q) (target_cc cc_value : Z) (values : list Z) (i : nat) :
  (0 <= glide_speed)%Q ->
  Prerecorded.cc_glide fuel glide_speed target_cc cc_value
  = Some (target_cc, map (ControlChange 113) values) ->
  (i + 2 < length (cc_value :: values))%nat ->
  Z.abs (nth (i + 2) (cc_value :: values) 0 - nth (i + 1) (cc_value :: values) 0)
  <= Z.abs (nth (i + 1) (cc_value :: values) 0 - nth i (cc_value :: values) 0).
Proof.
  intros Hg Hrun Hi.
  apply (cc_ramp_from_eases fuel glide_speed target_cc Hg cc_value values); [| exact Hi].
  apply cc_glide_some_ramp_from. exact Hrun.
Qed.

Lemma cc_glide_eases_out_witness :
  (0 <= Prerecorded.glide_speed)%Q
  /\ Prerecorded.cc_glide 22 Prerecorded.glide_speed 25 0
     = Some (25, map (ControlChange 113)
                   [2; 4; 6; 7; 8; 9; 10; 11; 12; 13; 14; 15; 16; 17; 18; 19; 20; 21;
                    22; 23; 24; 25])
  /\ (2 + 2 < length [0; 2; 4; 6; 7; 8; 9; 10; 11; 12; 13; 14; 15; 16; 17; 18; 19; 20;
                      21; 22; 23; 24; 25]%Z)%nat
  /\ Z.abs (7 - 6) <= Z.abs (6 - 4).
Proof.
  assert (Hg : (0 <= Prerecorded.glide_speed)%Q) by (vm_compute; discriminate).
  assert (Hrun : Prerecorded.cc_glide 22 Prerecorded.glide_speed 25 0
                 = Some (25, map (ControlChange 113)
                               [2; 4; 6; 7; 8; 9; 10; 11; 12; 13; 14; 15; 16; 17; 18; 19;
                                20; 21; 22; 23; 24; 25]))
    by reflexivity.
  assert (Hi : (2 + 2 < length [0; 2; 4; 6; 7; 8; 9; 10; 11; 12; 13; 14; 15; 16; 17; 18;
                               19; 20; 21; 22; 23; 24; 25]%Z)%nat) by (simpl; lia).
  split; [exact Hg |]. split; [exact Hrun |]. split; [exact Hi |].
  exact (cc_glide_eases_out 22 Prerecorded.glide_speed 25 0 _ 2 Hg Hrun Hi).
Defined.

(** ** Playback of a recording *)

Section Playback.

Import PrerecordedLoop.


Lemma cc_ramp_values (glide_speed : Q) (target_cc cc_value : Z) :
  exists values,
    cc_ramp glide_speed target_cc cc_value = (target_cc, map (ControlChange 113) values)
    /\ Forall (fun v => Z.min cc_value target_cc <= v <= Z.max cc_value target_cc) values.
Proof.
  destruct (cc_ramp_from_values (Z.to_nat (Z.abs (target_cc - cc_value)))
              glide_speed target_cc cc_value)
    as (values & Hrun & _ & _ & _ & Hall); [lia |].
  exists values. split; assumption.
Qed.

Lemma cc_ramp_at_target (glide_speed : Q) (target_cc : Z) :
  cc_ramp glide_speed target_cc target_cc = (target_cc, []).
Proof. apply cc_ramp_from_at_target. Qed.



Lemma play_from_app (a : analysis) (front back : list num) :
  forall (last_cc113 : Z) (i : nat),
    play_from a last_cc113 i (front ++ back)
    = (r <- play_from a last_cc113 i front ;;
       r' <- play_from a (fst r) (i + length front) back ;;
       Ok (fst r', snd r ++ snd r')).
Proof.
  induction front as [| h front IH]; intros last_cc113 i.
  - cbn [app play_from bind length fst snd]. rewrite Nat.add_0_r.
    destruct (play_from a last_cc113 i back) as [[final sent] |]; reflexivity.
  - cbn [app play_from length].
    destruct (play_peak a last_cc113 i h) as [r1 |]; [| reflexivity].
    cbn [bind]. rewrite IH.
    replace (S i + length front)%nat with (i + S (length front))%nat by lia.
    destruct (play_from a (fst r1) (S i) front) as [r2 |]; [| reflexivity].
    cbn [bind fst snd].
    destruct (play_from a (fst r2) (i + S (length front)) back) as [r3 |];
      [| reflexivity].
    cbn [bind fst snd]. rewrite app_assoc. reflexivity.
Qed.

Lemma analyse_length (peak_times : list num) (a : analysis) :
  analyse peak_times = Ok a ->
  (2 <= length peak_times)%nat
  /\ length (smoothed_bpm a) = (length peak_times - 1)%nat.
Proof.
  unfold analyse.
  destruct (Nat.ltb_spec (length peak_times) 2) as [| Hlen]; [discriminate |].
  destruct (moving_median3_in (np_diff peak_times) (np_diff_nonempty _ Hlen))
    as (smoothed_rr & -> & Hl & _).
  cbn [bind].
  destruct (np_min _) as [lo |]; [| discriminate]. cbn [bind].
  destruct (np_max _) as [hi |]; [| discriminate]. cbn [bind].
  intros H. apply Ok_inj in H. subst a. cbn [smoothed_bpm].
  split; [exact Hlen |].
  unfold bpm_of_rr. rewrite length_map, Hl. apply np_diff_length.
Qed.

(** The peak after the last interval takes the estimate of the one
    before. *)
Lemma bpm_at_past_the_end (smoothed_bpm : list num) :
  smoothed_bpm <> [] ->
  bpm_at smoothed_bpm (length smoothed_bpm)
  = bpm_at smoothed_bpm (length smoothed_bpm - 1).
Proof.
  intros Hne. unfold bpm_at.
  assert (Hpos : (0 < length smoothed_bpm)%nat)
    by (destruct smoothed_bpm; [contradiction | simpl; lia]).
  destruct (Nat.ltb_spec (length smoothed_bpm) (length smoothed_bpm)) as [| _]; [lia |].
  destruct (Nat.ltb_spec (length smoothed_bpm - 1) (length smoothed_bpm)) as [_ |]; [| lia].
  symmetry. apply nth_pred_length. exact Hne.
Qed.

End Playback.



(** X26.  In [bridge_prerecorded_modulation.py] the last peak
    sends nothing when the peak before it was played: having no RR interval
    of its own it takes the estimate of the peak before, whose target the
    glide has already reached.  The messages of the whole run are those of
    the run without the last peak, on the same analysis. *)
Theorem prerecorded_last_peak_is_silent
  (front : list (num * num)) (p1 p2 : num * num) (last_cc113 : Z) (sent : list event) :
  Num.ltb (snd p1) (Fin (8 # 10)) = false ->
  PrerecordedLoop.play (front ++ [p1; p2]) = Ok (last_cc113, sent) ->
  exists a,
    PrerecordedLoop.analyse (map fst (front ++ [p1; p2])) = Ok a
    /\ PrerecordedLoop.play_from a 0 0 (map snd (front ++ [p1])) = Ok (last_cc113, sent).
Proof.
  intros Hheight. unfold PrerecordedLoop.play.
  destruct (PrerecordedLoop.analyse (map fst (front ++ [p1; p2]))) as [a |] eqn:Ha;
    [| discriminate].
  cbn [bind]. intros Hrun. exists a. split; [reflexivity |].
  destruct (analyse_length _ _ Ha) as [_ Hlen].
  rewrite length_map, length_app in Hlen. cbn [length] in Hlen.
  assert (Hn : length (PrerecordedLoop.smoothed_bpm a) = S (length front)) by lia.
  assert (Hne : PrerecordedLoop.smoothed_bpm a <> []).
  { intros Hnil. rewrite Hnil in Hn. discriminate. }
  pose proof (bpm_at_past_the_end _ Hne) as Hsame. rewrite Hn in Hsame.
  replace (S (length front) - 1)%nat with (length front) in Hsame by lia.
  replace (front ++ [p1; p2]) with ((front ++ [p1]) ++ [p2]) in Hrun
    by (rewrite <- app_assoc; reflexivity).
  rewrite map_app, play_from_app in Hrun.
  rewrite map_app, play_from_app in Hrun |- *.
  rewrite length_app, !length_map in Hrun. rewrite length_map.
  cbn [map length Nat.add] in Hrun |- *.
  destruct (PrerecordedLoop.play_from a 0 0 (map snd front)) as [r0 |];
    [| discriminate].
  cbn [bind] in Hrun |- *.
  cbn [PrerecordedLoop.play_from] in Hrun |- *.
  unfold PrerecordedLoop.play_peak in Hrun |- *. rewrite Hheight in Hrun |- *.
  destruct (bpm_to_cc113 (PrerecordedLoop.min_bpm a) (PrerecordedLoop.max_bpm a)
              (PrerecordedLoop.bpm_at (PrerecordedLoop.smoothed_bpm a) (length front)))
    as [target_cc |] eqn:Ht; [| discriminate].
  cbn [bind] in Hrun |- *.
  destruct (cc_ramp_values Prerecorded.glide_speed target_cc (fst r0))
    as (values & Hramp & _).
  rewrite Hramp in Hrun |- *. cbn [bind fst snd] in Hrun |- *.
  replace (length front + 1)%nat with (S (length front)) in Hrun by lia.
  rewrite Hsame, Ht in Hrun. cbn [bind] in Hrun.
  rewrite cc_ramp_at_target in Hrun.
  destruct (Num.ltb (snd p2) (Fin (8 # 10))); cbn [bind fst snd] in Hrun;
    repeat rewrite app_nil_r in Hrun; repeat rewrite app_nil_r; exact Hrun.
Qed.

Lemma prerecorded_last_peak_is_silent_witness :
  Num.ltb (snd (Fin (9 # 5), Fin 1)) (Fin (8 # 10)) = false
  /\ exists last_cc113 sent a,
       PrerecordedLoop.play
         ([(Fin 0, Fin 1); (Fin 1, Fin 1)] ++ [(Fin (9 # 5), Fin 1); (Fin (12 # 5), Fin 1)])
       = Ok (last_cc113, sent)
       /\ PrerecordedLoop.play_from a 0 0
            (map snd ([(Fin 0, Fin 1); (Fin 1, Fin 1)] ++ [(Fin (9 # 5), Fin 1)]))
          = Ok (last_cc113, sent).
Proof.
  assert (Hheight : Num.ltb (snd (Fin (9 # 5), Fin 1)) (Fin (8 # 10)) = false)
    by reflexivity.
  split; [exact Hheight |].
  destruct (PrerecordedLoop.play
              ([(Fin 0, Fin 1); (Fin 1, Fin 1)]
               ++ [(Fin (9 # 5), Fin 1); (Fin (12 # 5), Fin 1)]))
    as [[last_cc113 sent] | e] eqn:Hrun.
  - destruct (prerecorded_last_peak_is_silent _ _ _ _ _ Hheight Hrun) as (a & _ & Hplay).
    exists last_cc113, sent, a. split; [reflexivity | exact Hplay].
  - vm_compute in Hrun. discriminate.
Defined.

(** ** More on binary64 *)

Section Binary64Steps.

Lemma b64_distance_samples_table :
  forallb (fun fs => B64.result_eqb (b64_distance_samples fs) (Ok (distance_samples fs)))
    (B64.Zrange 0 3001) = true.
Proof. vm_compute. reflexivity. Qed.

Lemma distance_samples_quotient (fs : Z) :
  0 <= fs -> distance_samples fs = 3 * fs / 10.
Proof.
  intros Hfs. unfold distance_samples, Num.truncate.
  assert (H0 : (0 <= (60 # 200) * inject_Z fs)%Q).
  { assert (H : (0 <= inject_Z fs)%Q).
    { change 0%Q with (inject_Z 0). rewrite <- Zle_Qle. exact Hfs. }
    nra. }
  rewrite (proj2 (Qle_bool_iff _ _) H0).
  unfold Qfloor, Qmult, inject_Z. cbn [Qnum Qden].
  change (Z.pos (200 * 1)) with 200.
  Z.to_euclidean_division_equations. lia.
Qed.

End Binary64Steps.

(** X27.  [distance_samples = int((60 / 200) * fs)] is the
    integer part of three tenths of [fs]; computed on binary64 as the scripts
    do, it is that same integer for every sampling rate of 0..3000 Hz, 300
    at the 1000 Hz of the scripts. *)
Theorem distance_samples_is_three_tenths (fs : Z) :
  0 <= fs <= 3000 ->
  b64_distance_samples fs = Ok (distance_samples fs)
  /\ distance_samples fs = 3 * fs / 10.
Proof.
  intros Hfs. split.
  - apply b64_result_is.
    pose proof b64_distance_samples_table as Htable.
    rewrite forallb_forall in Htable. apply Htable.
    apply Zrange_In. lia.
  - apply distance_samples_quotient. lia.
Qed.

Lemma distance_samples_is_three_tenths_witness :
  0 <= LiveSerial.fs <= 3000
  /\ b64_distance_samples LiveSerial.fs = Ok 300.
Proof.
  assert (Hfs : 0 <= LiveSerial.fs <= 3000) by (vm_compute; split; discriminate).
  split; [exact Hfs |].
  exact (proj1 (distance_samples_is_three_tenths LiveSerial.fs Hfs)).
Defined.

(** X28.  On binary64, for all notes and controller values of
    0..127, [int(round(note_distance * 0.2))] with the forced unit step, and
    [max(1, int(abs(target_cc - cc_value) * 0.1))], are the integers of the
    exact model. *)
Theorem binary64_steps_agree (target current : Z) :
  0 <= target <= 127 -> 0 <= current <= 127 ->
  B64.glide_step (target - current)
  = Ok (glide_step note_glide_speed (target - current))
  /\ B64.cc_increment target current
     = Ok (Prerecorded.cc_increment Prerecorded.glide_speed target current).
Proof.
  intros Ht Hc. split.
  - apply b64_glide_step_agrees. lia.
  - apply b64_cc_increment_agrees; assumption.
Qed.

Lemma binary64_steps_agree_witness :
  0 <= 84 <= 127 /\ 0 <= 48 <= 127
  /\ B64.glide_step (84 - 48) = Ok 7
  /\ B64.cc_increment 84 48 = Ok 3.
Proof.
  assert (Ht : 0 <= 84 <= 127) by lia.
  assert (Hc : 0 <= 48 <= 127) by lia.
  split; [exact Ht |]. split; [exact Hc |].
  exact (binary64_steps_agree 84 48 Ht Hc).
Defined.
